(** * Touhou-Calendar: the ICS generator of [main.py], embedded and verified

    The development follows [main.py] function by function:
    [parse_event], [load_events], [ics_escape], [ics_fold_line],
    [generate_uid], [build_vevent], [build_ics], [print_event_summary]
    and [main].

    Data model.  A Python [str] is the list of its code points, [bytes] a
    list of octets, both over [Z].  The values PyYAML hands to
    [parse_event] are the dynamically typed [pyval]; a [dict] is a [gmap]
    keyed by strings.  A call that may raise returns an [outcome]. *)

From Stdlib Require Import ZArith Lia Ascii String Sorted Permutation.
From stdpp Require Import gmap list.

Set Warnings "-register-all".
#[local] Open Scope Z_scope.

(** ** Strings and bytes *)

Abbreviation str := (list Z).
Abbreviation bytes := (list Z).

(** ASCII literals of the source, as code points. *)
Fixpoint lit (s : string) : str :=
  match s with
  | EmptyString => []
  | String a s' => Z.of_N (N_of_ascii a) :: lit s'
  end.

Definition CR : Z := 13.
Definition LF : Z := 10.
Definition SP : Z := 32.
Definition BACKSLASH : Z := 92.

(** ** Outcomes of a call *)

Inductive exn : Type :=
  | KeyError (key : str)
  | AttributeError
  | TypeError
  | ValueError
  | OverflowError
  | UnicodeEncodeError
  | UnicodeDecodeError
  | FileNotFoundError.

(** [OutOfFuel]: the loop bound of the model was reached before the Python
    loop ended.  [Unmodelled]: the value met an operation whose result this
    embedding does not describe (a float, bytes or date from YAML, the
    [repr] of a container). *)
Inductive outcome (A : Type) : Type :=
  | Returns (a : A)
  | Raises (e : exn)
  | OutOfFuel
  | Unmodelled.
Arguments Returns {A} a.
Arguments Raises {A} e.
Arguments OutOfFuel {A}.
Arguments Unmodelled {A}.

Definition bind {A B} (m : outcome A) (k : A -> outcome B) : outcome B :=
  match m with
  | Returns a => k a
  | Raises e => Raises e
  | OutOfFuel => OutOfFuel
  | Unmodelled => Unmodelled
  end.

Notation "'let!' x := m 'in' k" := (bind m (fun x => k))
  (at level 10, x name, m at level 100, k at level 200,
   format "'[v' 'let!'  x  :=  m  'in' '/' k ']'").

#[global] Instance outcome_fmap : FMap outcome :=
  fun _ _ f m => let! a := m in Returns (f a).

(** [for x in xs: acc = body(acc, x)], stopping at the first exception. *)
Fixpoint foldM {A B} (body : B -> A -> outcome B) (acc : B) (xs : list A)
  : outcome B :=
  match xs with
  | [] => Returns acc
  | x :: xs' => let! acc' := body acc x in foldM body acc' xs'
  end.

(** [[f(x) for x in xs]]. *)
Fixpoint mapM {A B} (f : A -> outcome B) (xs : list A) : outcome (list B) :=
  match xs with
  | [] => Returns []
  | x :: xs' => let! y := f x in let! ys := mapM f xs' in Returns (y :: ys)
  end.

(** ** UTF-8: [str.encode("utf-8")] and [bytes.decode("utf-8")] *)

Definition is_surrogate (c : Z) : bool := (0xD800 <=? c) && (c <=? 0xDFFF).

(** A code point that UTF-8 can carry: U+0000..U+10FFFF without the
    surrogates. *)
Definition scalar (c : Z) : bool :=
  (0 <=? c) && (c <=? 0x10FFFF) && negb (is_surrogate c).

Definition encode_cp (c : Z) : bytes :=
  if c <? 0x80 then [c]
  else if c <? 0x800 then [0xC0 + c / 64; 0x80 + c mod 64]
  else if c <? 0x10000 then
    [0xE0 + c / 4096; 0x80 + (c / 64) mod 64; 0x80 + c mod 64]
  else
    [0xF0 + c / 262144; 0x80 + (c / 4096) mod 64;
     0x80 + (c / 64) mod 64; 0x80 + c mod 64].

Fixpoint utf8_encode (s : str) : outcome bytes :=
  match s with
  | [] => Returns []
  | c :: s' =>
      if scalar c then let! bs := utf8_encode s' in Returns (encode_cp c ++ bs)
      else Raises UnicodeEncodeError
  end.

(** The test of [ics_fold_line]: [(b & 0xC0) == 0x80]. *)
Definition is_cont (b : Z) : bool := Z.land b 0xC0 =? 0x80.

Definition cont_bits (b : Z) : Z := b - 0x80.

Fixpoint utf8_decode (bs : bytes) : outcome str :=
  match bs with
  | [] => Returns []
  | b0 :: r0 =>
      if (0 <=? b0) && (b0 <? 0x80) then
        let! s := utf8_decode r0 in Returns (b0 :: s)
      else if (0xC2 <=? b0) && (b0 <=? 0xDF) then
        match r0 with
        | b1 :: r1 =>
            if is_cont b1 then
              let! s := utf8_decode r1 in
              Returns (((b0 - 0xC0) * 64 + cont_bits b1) :: s)
            else Raises UnicodeDecodeError
        | _ => Raises UnicodeDecodeError
        end
      else if (0xE0 <=? b0) && (b0 <=? 0xEF) then
        match r0 with
        | b1 :: b2 :: r2 =>
            let c := (b0 - 0xE0) * 4096 + cont_bits b1 * 64 + cont_bits b2 in
            if is_cont b1 && is_cont b2 && (0x800 <=? c) && negb (is_surrogate c)
            then let! s := utf8_decode r2 in Returns (c :: s)
            else Raises UnicodeDecodeError
        | _ => Raises UnicodeDecodeError
        end
      else if (0xF0 <=? b0) && (b0 <=? 0xF4) then
        match r0 with
        | b1 :: b2 :: b3 :: r3 =>
            let c := (b0 - 0xF0) * 262144 + cont_bits b1 * 4096
                     + cont_bits b2 * 64 + cont_bits b3 in
            if is_cont b1 && is_cont b2 && is_cont b3
               && (0x10000 <=? c) && (c <=? 0x10FFFF)
            then let! s := utf8_decode r3 in Returns (c :: s)
            else Raises UnicodeDecodeError
        | _ => Raises UnicodeDecodeError
        end
      else Raises UnicodeDecodeError
  end.

(** ** The [str] methods the source calls *)

Fixpoint starts_with (p s : str) : bool :=
  match p, s with
  | [], _ => true
  | a :: p', b :: s' => (a =? b) && starts_with p' s'
  | _ :: _, [] => false
  end.

(** [replace_from skip old new s]: the scan of [str.replace] for a
    non-empty [old], left to right over non-overlapping occurrences;
    [skip] counts the characters of a matched occurrence still to pass. *)
Fixpoint replace_from (skip : nat) (old new s : str) : str :=
  match s with
  | [] => []
  | c :: s' =>
      match skip with
      | S k => replace_from k old new s'
      | O =>
          if starts_with old s
          then new ++ replace_from (length old - 1) old new s'
          else c :: replace_from 0 old new s'
      end
  end.

(** [s.replace(old, new)].  With an empty [old] Python puts [new] before
    every character and at the end. *)
Definition replace (s old new : str) : str :=
  match old with
  | [] => new ++ flat_map (fun c => c :: new) s
  | _ :: _ => replace_from 0 old new s
  end.

(** [str.isspace] of one character, the set [str.strip()] removes. *)
Definition is_space (c : Z) : bool :=
  ((0x09 <=? c) && (c <=? 0x0D)) || ((0x1C <=? c) && (c <=? 0x20))
  || (c =? 0x85) || (c =? 0xA0) || (c =? 0x1680)
  || ((0x2000 <=? c) && (c <=? 0x200A))
  || (c =? 0x2028) || (c =? 0x2029) || (c =? 0x202F) || (c =? 0x205F)
  || (c =? 0x3000).

Fixpoint lstrip (s : str) : str :=
  match s with
  | c :: s' => if is_space c then lstrip s' else s
  | [] => []
  end.

Definition rstrip (s : str) : str := reverse (lstrip (reverse s)).

(** [s.strip()] *)
Definition strip (s : str) : str := rstrip (lstrip s).

(** [sep.join(parts)] *)
Fixpoint join (sep : str) (parts : list str) : str :=
  match parts with
  | [] => []
  | [p] => p
  | p :: ps => p ++ sep ++ join sep ps
  end.

(** [s.split(sep)] for a non-empty [sep]; [cur] is the piece being read,
    reversed. *)
Fixpoint split_from (skip : nat) (sep cur s : str) : list str :=
  match s with
  | [] => [reverse cur]
  | c :: s' =>
      match skip with
      | S k => split_from k sep cur s'
      | O =>
          if starts_with sep s
          then reverse cur :: split_from (length sep - 1) sep [] s'
          else split_from 0 sep (c :: cur) s'
      end
  end.

Definition split (s sep : str) : list str := split_from 0 sep [] s.

(** ** ICS text utilities *)

(** [ics_escape], lines 61-67. *)
Definition ics_escape (text : str) : str :=
  let text := replace text (lit "\") (lit "\\") in
  let text := replace text (lit ";") (lit "\;") in
  let text := replace text (lit ",") (lit "\,") in
  let text := replace text [LF] (lit "\n") in
  text.

(** The inner loop of [ics_fold_line], lines 78-80: from [split_at], step
    back while [encoded[split_at]] is a continuation byte.  The outer loop
    runs it with [len(encoded) > 75 >= split_at], so the index is in
    range. *)
Fixpoint find_split (encoded : bytes) (split_at : nat) : nat :=
  match split_at with
  | O => O
  | S k =>
      if is_cont (nth split_at encoded 0)
      then find_split encoded k
      else split_at
  end.

(** The outer loop, lines 76-83, with its final [result.append]. *)
Fixpoint fold_loop (fuel : nat) (encoded : bytes) (result : list str)
  : outcome (list str) :=
  if (length encoded <=? 75)%nat then
    let! last := utf8_decode encoded in Returns (result ++ [last])
  else
    match fuel with
    | O => OutOfFuel
    | S fuel' =>
        let split_at := find_split encoded 75 in
        let! chunk := utf8_decode (take split_at encoded) in
        fold_loop fuel' (drop split_at encoded) (result ++ [chunk])
    end.

(** The separator of the final join, [CRLF] and one space. *)
Definition fold_marker : str := [CR; LF; SP].

Definition ics_fold_line_fuel (fuel : nat) (line : str) : outcome str :=
  let! encoded := utf8_encode line in
  if (length encoded <=? 75)%nat then Returns line
  else
    let! result := fold_loop fuel encoded [] in
    Returns (join fold_marker result).

(** [ics_fold_line], lines 70-84.  A pass of the loop that does not end
    it removes at least one byte, and a code point takes at most four
    bytes, so four passes for each character are more than enough
    ([fold_line_enough_fuel] below). *)
Definition ics_fold_line (line : str) : outcome str :=
  ics_fold_line_fuel (4 * length line) line.

(** ** SHA-256 ([hashlib.sha256], FIPS 180-4) *)

Module SHA256.

Definition w32 (x : Z) : Z := x mod 2 ^ 32.
Definition add32 (x y : Z) : Z := w32 (x + y).
Definition rotr (n x : Z) : Z :=
  Z.lor (Z.shiftr x n) (w32 (Z.shiftl x (32 - n))).
Definition not32 (x : Z) : Z := 2 ^ 32 - 1 - x.

Definition Ch (x y z : Z) := Z.lxor (Z.land x y) (Z.land (not32 x) z).
Definition Maj (x y z : Z) :=
  Z.lxor (Z.lxor (Z.land x y) (Z.land x z)) (Z.land y z).
Definition Sigma0 x := Z.lxor (Z.lxor (rotr 2 x) (rotr 13 x)) (rotr 22 x).
Definition Sigma1 x := Z.lxor (Z.lxor (rotr 6 x) (rotr 11 x)) (rotr 25 x).
Definition sigma0 x := Z.lxor (Z.lxor (rotr 7 x) (rotr 18 x)) (Z.shiftr x 3).
Definition sigma1 x := Z.lxor (Z.lxor (rotr 17 x) (rotr 19 x)) (Z.shiftr x 10).

(** The primes up to 311, the first 64 of them. *)
Definition is_prime (n : Z) : bool :=
  forallb (fun d => negb (n mod d =? 0)) (seqZ 2 (n - 2)).

Definition primes : list Z := List.filter is_prime (seqZ 2 310).

(** The integer cube root, bit by bit from bit [n - 1] down. *)
Fixpoint cube_root_from (n : nat) (target acc : Z) : Z :=
  match n with
  | O => acc
  | S k =>
      let candidate := acc + 2 ^ Z.of_nat k in
      if candidate ^ 3 <=? target
      then cube_root_from k target candidate
      else cube_root_from k target acc
  end.

(** The first 32 bits of the fractional part of the cube root and of the
    square root of [p]. *)
Definition frac_cube_root (p : Z) : Z :=
  w32 (cube_root_from 40 (p * 2 ^ 96) 0).

Definition frac_square_root (p : Z) : Z := w32 (Z.sqrt (p * 2 ^ 64)).

(** The round constants, from the first 64 primes. *)
Definition K : list Z := Eval vm_compute in map frac_cube_root primes.

(** The initial hash value, from the first 8 primes. *)
Definition H0 : list Z :=
  Eval vm_compute in map frac_square_root (take 8 primes).

(** Big-endian bytes of [x], [n] of them. *)
Fixpoint be_bytes (n : nat) (x : Z) : bytes :=
  match n with
  | O => []
  | S k => be_bytes k (x / 256) ++ [x mod 256]
  end.

Definition be_word (bs : bytes) : Z :=
  fold_left (fun acc b => acc * 256 + b) bs 0.

(** The message, a 1 bit, zeros up to 56 modulo 64, the bit length. *)
Definition pad (msg : bytes) : bytes :=
  let len := Z.of_nat (length msg) in
  let zeros := Z.to_nat ((55 - len) mod 64) in
  msg ++ [0x80] ++ replicate zeros 0 ++ be_bytes 8 (8 * len).

Fixpoint words (n : nat) (bs : bytes) : list Z :=
  match n with
  | O => []
  | S k => be_word (take 4 bs) :: words k (drop 4 bs)
  end.

(** The message schedule, most recent word first: [rev] holds
    [W[t-1], W[t-2], ...]. *)
Fixpoint schedule (n : nat) (rev : list Z) : list Z :=
  match n with
  | O => rev
  | S k =>
      let w := add32 (add32 (sigma1 (nth 1 rev 0)) (nth 6 rev 0))
                     (add32 (sigma0 (nth 14 rev 0)) (nth 15 rev 0)) in
      schedule k (w :: rev)
  end.

Definition round (st : list Z) (kw : Z * Z) : list Z :=
  match st with
  | [a; b; c; d; e; f; g; h] =>
      let t1 := add32 (add32 (add32 h (Sigma1 e)) (Ch e f g))
                      (add32 (fst kw) (snd kw)) in
      let t2 := add32 (Sigma0 a) (Maj a b c) in
      [add32 t1 t2; a; b; c; add32 d t1; e; f; g]
  | _ => st
  end.

Definition compress (h : list Z) (block : bytes) : list Z :=
  let w := reverse (schedule 48 (reverse (words 16 block))) in
  let st := fold_left round (zip K w) h in
  zip_with add32 h st.

Fixpoint blocks (n : nat) (h : list Z) (bs : bytes) : list Z :=
  match n with
  | O => h
  | S k => blocks k (compress h (take 64 bs)) (drop 64 bs)
  end.

Definition digest_words (msg : bytes) : list Z :=
  let p := pad msg in blocks (length p / 64) H0 p.

Definition hex_digit (d : Z) : Z :=
  if d <? 10 then 48 + d else 87 + d.

Fixpoint hex (n : nat) (x : Z) : str :=
  match n with
  | O => []
  | S k => hex k (x / 16) ++ [hex_digit (x mod 16)]
  end.

(** [hashlib.sha256(msg).hexdigest()] *)
Definition hexdigest (msg : bytes) : str :=
  flat_map (hex 8) (digest_words msg).

End SHA256.

(** ** Values and events *)

(** What [yaml.safe_load_all] yields.  [VDict] keeps the string-keyed
    entries of a mapping, all that the lookups of [parse_event] can see.
    [VOther] stands for a value of another type (float, bytes, date, set):
    it is not a list and has no [get]; nothing else is described on it. *)
Inductive pyval : Type :=
  | VNone
  | VBool (b : bool)
  | VInt (z : Z)
  | VStr (s : str)
  | VList (l : list pyval)
  | VDict (d : gmap str pyval)
  | VOther (tag : Z).

(** The dataclass of lines 15-24.  The annotations are not enforced at
    run time, so a field holds whatever the document had; [characters] and
    [citations] are lists by construction in [parse_event]. *)
Record CalendarEvent : Type := mkEvent {
  month : pyval;
  day : pyval;
  name : pyval;
  message : pyval;
  explanation : pyval;
  explanation_short : pyval;
  characters : list pyval;
  citations : list pyval;
}.

Definition REFERENCE_YEAR : Z := 2024.

(** ** Built-in operations on values *)

Definition int_of_bool (b : bool) : Z := if b then 1 else 0.

(** Truth value, for [or] and [if]. *)
Definition truthy (v : pyval) : outcome bool :=
  match v with
  | VNone => Returns false
  | VBool b => Returns b
  | VInt z => Returns (negb (z =? 0))
  | VStr s => Returns (negb (bool_decide (s = [])))
  | VList l => Returns (match l with [] => false | _ => true end)
  | VDict _ | VOther _ => Unmodelled
  end.

(** [a or b] *)
Definition py_or (a b : pyval) : outcome pyval :=
  let! t := truthy a in Returns (if t then a else b).

(** Decimal digits of a natural number, [acc] to their right. *)
Fixpoint decimal_from (fuel : nat) (n : Z) (acc : str) : str :=
  match fuel with
  | O => acc
  | S fuel' =>
      let acc' := (48 + n mod 10) :: acc in
      if n <? 10 then acc' else decimal_from fuel' (n / 10) acc'
  end.

Definition decimal (n : Z) : str :=
  decimal_from (S (Z.to_nat (Z.log2 n))) n [].

(** [str(z)] for an int. *)
Definition str_of_int (z : Z) : str :=
  if z <? 0 then lit "-" ++ decimal (- z) else decimal z.

(** [format(z, "02d")]: sign, then zeros up to width 2, then digits. *)
Definition format_02d_int (z : Z) : str :=
  let sign := if z <? 0 then lit "-" else [] in
  let digits := decimal (Z.abs z) in
  sign ++ replicate (2 - length sign - length digits)%nat 48 ++ digits.

(** [f"{v:02d}"] *)
Definition format_02d (v : pyval) : outcome str :=
  match v with
  | VInt z => Returns (format_02d_int z)
  | VBool b => Returns (format_02d_int (int_of_bool b))
  | VStr _ => Raises ValueError
  | VNone | VList _ | VDict _ => Raises TypeError
  | VOther _ => Unmodelled
  end.

(** [f"{v}"], that is [str(v)]. *)
Definition format_str (v : pyval) : outcome str :=
  match v with
  | VStr s => Returns s
  | VInt z => Returns (str_of_int z)
  | VBool b => Returns (if b then lit "True" else lit "False")
  | VNone => Returns (lit "None")
  | VList _ | VDict _ | VOther _ => Unmodelled
  end.

(** A method of [str] called on [v]: others have no such attribute. *)
Definition as_str_receiver (v : pyval) : outcome str :=
  match v with
  | VStr s => Returns s
  | VNone | VBool _ | VInt _ | VList _ | VDict _ => Raises AttributeError
  | VOther _ => Unmodelled
  end.

(** [v.strip()] *)
Definition py_strip (v : pyval) : outcome str :=
  let! s := as_str_receiver v in Returns (strip s).

(** [sep.join(items)]: every item has to be a [str]. *)
Definition join_item (v : pyval) : outcome str :=
  match v with
  | VStr s => Returns s
  | VOther _ => Unmodelled
  | _ => Raises TypeError
  end.

Definition py_join (sep : str) (items : list pyval) : outcome str :=
  let! parts := mapM join_item items in Returns (join sep parts).

(** ** [datetime.date] *)

Definition is_leap (y : Z) : bool :=
  (y mod 4 =? 0) && (negb (y mod 100 =? 0) || (y mod 400 =? 0)).

Definition days_in_month (y m : Z) : Z :=
  if m =? 2 then (if is_leap y then 29 else 28)
  else if (m =? 4) || (m =? 6) || (m =? 9) || (m =? 11) then 30
  else 31.

(** An argument of [date(...)], read as a C [int]. *)
Definition as_c_int (v : pyval) : outcome Z :=
  match v with
  | VInt z =>
      if (- 2 ^ 31 <=? z) && (z <? 2 ^ 31) then Returns z
      else Raises OverflowError
  | VBool b => Returns (int_of_bool b)
  | VNone | VStr _ | VList _ | VDict _ => Raises TypeError
  | VOther _ => Unmodelled
  end.

(** [date(y, m, d)]: the arguments are converted first, then checked. *)
Definition date (y : Z) (m d : pyval) : outcome (Z * Z * Z) :=
  let! m := as_c_int m in
  let! d := as_c_int d in
  if negb ((1 <=? m) && (m <=? 12)) then Raises ValueError
  else if negb ((1 <=? d) && (d <=? days_in_month y m)) then Raises ValueError
  else Returns (y, m, d).

(** [dt.strftime("%Y%m%d")] *)
Definition strftime_Ymd (dt : Z * Z * Z) : str :=
  let '(y, m, d) := dt in decimal y ++ format_02d_int m ++ format_02d_int d.

(** ** UID generator *)

Definition uid_suffix : str := lit "@touhou-calendar".

(** [generate_uid], lines 87-90. *)
Definition generate_uid (event : CalendarEvent) : outcome str :=
  let! mm := format_02d (month event) in
  let! dd := format_02d (day event) in
  let! nm := format_str (name event) in
  let unique_string := mm ++ lit "-" ++ dd ++ lit "-" ++ nm in
  let! encoded := utf8_encode unique_string in
  let hash_hex := take 16 (SHA256.hexdigest encoded) in
  Returns (hash_hex ++ uid_suffix).

(** ** VEVENT and calendar builders *)

Definition CRLF : str := [CR; LF].

(** The separator of the description parts: backslash, n, backslash, n. *)
Definition part_sep : str := lit "\n\n".

(** Lines 97-102 of [build_vevent]: the escaped description. *)
Definition build_description (event : CalendarEvent) : outcome str :=
  let description_parts := [message event] in
  let! explanation := py_or (explanation_short event) (explanation event) in
  let! stripped := py_strip explanation in
  let description_parts := description_parts ++ [VStr stripped] in
  let! description_parts :=
    match characters event with
    | [] => Returns description_parts
    | _ :: _ =>
        let! joined := py_join (lit ", ") (characters event) in
        Returns (description_parts ++ [VStr (lit "Characters: " ++ joined)])
    end in
  let! escaped :=
    mapM (fun part => let! p := py_strip part in Returns (ics_escape p))
         description_parts in
  Returns (join part_sep escaped).

(** [build_vevent], lines 93-117. *)
Definition build_vevent (event : CalendarEvent) : outcome str :=
  let! dt := date REFERENCE_YEAR (month event) (day event) in
  let dtstart := strftime_Ymd dt in
  let! description := build_description event in
  let! summary := ics_escape <$> as_str_receiver (name event) in
  let! uid := generate_uid event in
  let lines :=
    [ lit "BEGIN:VEVENT";
      lit "UID:" ++ uid;
      lit "DTSTART;VALUE=DATE:" ++ dtstart;
      lit "SUMMARY:" ++ summary;
      lit "DESCRIPTION:" ++ description;
      lit "RRULE:FREQ=YEARLY";
      lit "TRANSP:TRANSPARENT";
      lit "END:VEVENT" ] in
  let! folded := mapM ics_fold_line lines in
  Returns (join CRLF folded).

Definition ics_header : str :=
  join CRLF
    [ lit "BEGIN:VCALENDAR";
      lit "VERSION:2.0";
      lit "PRODID:-//Touhou Calendar//Touhou Calendar//EN";
      lit "CALSCALE:GREGORIAN";
      lit "METHOD:PUBLISH";
      lit "X-WR-CALNAME:Touhou Calendar" ].

(** [build_ics], lines 120-131. *)
Definition build_ics (events : list CalendarEvent) : outcome str :=
  let header := ics_header in
  let! vevents := join CRLF <$> mapM build_vevent events in
  let footer := lit "END:VCALENDAR" in
  Returns (header ++ CRLF ++ vevents ++ CRLF ++ footer ++ CRLF).

(** ** Event loader *)

(** [doc[key]] *)
Definition getitem (d : gmap str pyval) (key : str) : outcome pyval :=
  match d !! key with
  | Some v => Returns v
  | None => Raises (KeyError key)
  end.

(** [doc.get(key)], [None] when the key is absent. *)
Definition dict_get (d : gmap str pyval) (key : str) : pyval :=
  default VNone (d !! key).

(** [x if isinstance(x, list) else []] of lines 29-30 and 33-34. *)
Definition list_or_empty (v : pyval) : list pyval :=
  match v with
  | VList l => l
  | _ => []
  end.

(** [parse_event], lines 27-45.  The two [get]s come first, then the
    keyword arguments are evaluated in the order written.  Only a mapping
    has [get]; no other YAML value does. *)
Definition parse_event (doc : pyval) : outcome CalendarEvent :=
  match doc with
  | VDict d =>
      let raw_citations := list_or_empty (dict_get d (lit "citations")) in
      let raw_characters := list_or_empty (dict_get d (lit "characters")) in
      let! v_month := getitem d (lit "month") in
      let! v_day := getitem d (lit "day") in
      let! v_name := getitem d (lit "name") in
      let! v_message := getitem d (lit "message") in
      let! v_explanation := getitem d (lit "explanation") in
      Returns {| month := v_month;
                 day := v_day;
                 name := v_name;
                 message := v_message;
                 explanation := v_explanation;
                 explanation_short := dict_get d (lit "explanation_short");
                 characters := raw_characters;
                 citations := raw_citations |}
  | VNone | VBool _ | VInt _ | VStr _ | VList _ | VOther _ =>
      Raises AttributeError
  end.

(** [a == b] on the values a sort key can hold. *)
Definition py_eq (a b : pyval) : outcome bool :=
  match a, b with
  | VOther _, _ | _, VOther _ => Unmodelled
  | VList _, VList _ | VDict _, VDict _ => Unmodelled
  | VNone, VNone => Returns true
  | VInt x, VInt y => Returns (x =? y)
  | VInt x, VBool y => Returns (x =? int_of_bool y)
  | VBool x, VInt y => Returns (int_of_bool x =? y)
  | VBool x, VBool y => Returns (int_of_bool x =? int_of_bool y)
  | VStr x, VStr y => Returns (bool_decide (x = y))
  | _, _ => Returns false
  end.

(** [x < y] on strings: by code point, a proper prefix first. *)
Fixpoint str_lt (x y : str) : bool :=
  match x, y with
  | _, [] => false
  | [], _ :: _ => true
  | a :: x', b :: y' => (a <? b) || ((a =? b) && str_lt x' y')
  end.

(** [a < b] *)
Definition py_lt (a b : pyval) : outcome bool :=
  match a, b with
  | VOther _, _ | _, VOther _ => Unmodelled
  | VList _, VList _ => Unmodelled
  | VInt x, VInt y => Returns (x <? y)
  | VInt x, VBool y => Returns (x <? int_of_bool y)
  | VBool x, VInt y => Returns (int_of_bool x <? y)
  | VBool x, VBool y => Returns (int_of_bool x <? int_of_bool y)
  | VStr x, VStr y => Returns (str_lt x y)
  | _, _ => Raises TypeError
  end.

(** [a < b] on tuples: the first position where they differ decides. *)
Fixpoint tuple_lt (a b : list pyval) : outcome bool :=
  match a, b with
  | x :: a', y :: b' =>
      let! same := py_eq x y in
      if same then tuple_lt a' b' else py_lt x y
  | [], _ :: _ => Returns true
  | _, [] => Returns false
  end.

(** The key of line 57, [(e.month, e.day, e.name)]. *)
Definition sort_key (e : CalendarEvent) : list pyval :=
  [month e; day e; name e].

Definition key_lt (a b : CalendarEvent) : outcome bool :=
  tuple_lt (sort_key a) (sort_key b).

Definition lt_true (r : outcome bool) : bool :=
  match r with
  | Returns true => true
  | _ => false
  end.

(** Stable insertion: [x] goes before the first element not below it. *)
Fixpoint insert_event (x : CalendarEvent) (l : list CalendarEvent)
  : list CalendarEvent :=
  match l with
  | [] => [x]
  | y :: l' =>
      if lt_true (key_lt y x) then y :: insert_event x l' else x :: l
  end.

Fixpoint insertion_sort (l : list CalendarEvent) : list CalendarEvent :=
  match l with
  | [] => []
  | x :: l' => insert_event x (insertion_sort l')
  end.

(** The comparisons of every pair of the list. *)
Definition all_comparisons (l : list CalendarEvent) : list (outcome bool) :=
  x ← l; y ← l; [key_lt x y].

Definition is_unmodelled {A} (r : outcome A) : bool :=
  match r with Unmodelled => true | _ => false end.

Definition is_raise {A} (r : outcome A) : bool :=
  match r with Raises _ => true | _ => false end.

(** [events.sort(key=...)], line 57.  [list.sort] is a stable sort that
    compares keys with [<] only.  Where every two keys compare, [<] is a
    total preorder on them and the result is the stable sort, whatever
    comparisons are made; where two keys do not, no run of comparisons
    can order them and the [TypeError] of [<] comes out. *)
Definition sort_events (l : list CalendarEvent)
  : outcome (list CalendarEvent) :=
  if existsb is_unmodelled (all_comparisons l) then Unmodelled
  else if existsb is_raise (all_comparisons l) then Raises TypeError
  else Returns (insertion_sort l).

(** The files the run touches: [days/<n>.yaml] as the documents that
    [yaml.safe_load_all] yields from it, [touhou_calendar.ics] as its
    bytes, and the lines printed so far. *)
Record world : Type := mkWorld {
  days : gmap Z (list pyval);
  output : option bytes;
  console : list str;
}.

(** [yaml_path.open()] and [yaml.safe_load_all(f)], lines 51-53. *)
Definition open_yaml (w : world) (month_num : Z) : outcome (list pyval) :=
  match days w !! month_num with
  | Some docs => Returns docs
  | None => Raises FileNotFoundError
  end.

(** The body of the inner loop, lines 54-56. *)
Definition load_doc (events : list CalendarEvent) (doc : pyval)
  : outcome (list CalendarEvent) :=
  match doc with
  | VNone => Returns events
  | _ => let! e := parse_event doc in Returns (events ++ [e])
  end.

(** The body of the outer loop, lines 51-56. *)
Definition load_month (w : world) (events : list CalendarEvent)
  (month_num : Z) : outcome (list CalendarEvent) :=
  let! docs := open_yaml w month_num in
  foldM load_doc events docs.

(** [range(1, 13)] *)
Definition month_range : list Z := seqZ 1 12.

(** The events as appended, before line 57. *)
Definition collect_events (w : world) : outcome (list CalendarEvent) :=
  foldM (load_month w) [] month_range.

(** [load_events], lines 48-58. *)
Definition load_events (w : world) : outcome (list CalendarEvent) :=
  let! events := collect_events w in
  sort_events events.

(** ** Runner *)

(** [print(s)] *)
Definition print (s : str) (w : world) : world :=
  {| days := days w; output := output w; console := console w ++ [s] |}.

(** The line of line 137. *)
Definition summary_line (event : CalendarEvent) : outcome str :=
  let! mm := format_02d (month event) in
  let! dd := format_02d (day event) in
  let! nm := format_str (name event) in
  Returns (lit "  " ++ mm ++ lit "/" ++ dd ++ lit " - " ++ nm).

Fixpoint print_events (events : list CalendarEvent) (w : world)
  : outcome unit * world :=
  match events with
  | [] => (Returns tt, w)
  | event :: rest =>
      match summary_line event with
      | Returns line => print_events rest (print line w)
      | Raises e => (Raises e, w)
      | OutOfFuel => (OutOfFuel, w)
      | Unmodelled => (Unmodelled, w)
      end
  end.

(** [print_event_summary], lines 134-138. *)
Definition print_event_summary (events : list CalendarEvent) (w : world)
  : outcome unit * world :=
  let w := print (lit "Parsed " ++ str_of_int (Z.of_nat (length events))
                  ++ lit " events:" ++ [LF]) w in
  match print_events events w with
  | (Returns _, w) => (Returns tt, print [] w)
  | r => r
  end.

(** [OUTPUT_FILE.write_text(content, encoding="utf-8", newline="")]: the
    file is opened, hence emptied, before the text is encoded. *)
Definition write_text (content : str) (w : world) : outcome unit * world :=
  let put bs := {| days := days w; output := Some bs; console := console w |} in
  match utf8_encode content with
  | Returns bs => (Returns tt, put bs)
  | Raises e => (Raises e, put [])
  | OutOfFuel => (OutOfFuel, w)
  | Unmodelled => (Unmodelled, w)
  end.

(** [main], lines 141-148. *)
Definition main (w : world) : outcome unit * world :=
  match load_events w with
  | Returns events =>
      match print_event_summary events w with
      | (Returns _, w) =>
          match build_ics events with
          | Returns ics_content =>
              match write_text ics_content w with
              | (Returns _, w) =>
                  (Returns tt,
                   print (lit "Written touhou_calendar.ics with "
                          ++ str_of_int (Z.of_nat (length events))
                          ++ lit " events.") w)
              | r => r
              end
          | Raises e => (Raises e, w)
          | OutOfFuel => (OutOfFuel, w)
          | Unmodelled => (Unmodelled, w)
          end
      | r => r
      end
  | Raises e => (Raises e, w)
  | OutOfFuel => (OutOfFuel, w)
  | Unmodelled => (Unmodelled, w)
  end.

(** * Specification-side definitions *)

(** The call ended, with a value or with an exception. *)
Definition settled {A} (r : outcome A) : Prop :=
  (exists a, r = Returns a) \/ (exists e, r = Raises e).

(** ** Escaping, character by character *)

Definition escape_char (c : Z) : str :=
  if c =? BACKSLASH then lit "\\"
  else if c =? 59 then lit "\;"
  else if c =? 44 then lit "\,"
  else if c =? LF then lit "\n"
  else [c].

(** ** The end-to-end sample *)

Definition miyako_doc : pyval :=
  VDict (list_to_map
    [ (lit "month", VInt 2); (lit "day", VInt 29);
      (lit "name", VStr (lit "Miyako Day"));
      (lit "message", VStr (lit "M"));
      (lit "explanation", VStr (lit "E")) ]).

Definition miyako : CalendarEvent :=
  {| month := VInt 2; day := VInt 29; name := VStr (lit "Miyako Day");
     message := VStr (lit "M"); explanation := VStr (lit "E");
     explanation_short := VNone; characters := []; citations := [] |}.

Definition miyako_lines : list str :=
  [ lit "BEGIN:VCALENDAR";
    lit "VERSION:2.0";
    lit "PRODID:-//Touhou Calendar//Touhou Calendar//EN";
    lit "CALSCALE:GREGORIAN";
    lit "METHOD:PUBLISH";
    lit "X-WR-CALNAME:Touhou Calendar";
    lit "BEGIN:VEVENT";
    lit "UID:1246b52e625d9167@touhou-calendar";
    lit "DTSTART;VALUE=DATE:20240229";
    lit "SUMMARY:Miyako Day";
    lit "DESCRIPTION:M\n\nE";
    lit "RRULE:FREQ=YEARLY";
    lit "TRANSP:TRANSPARENT";
    lit "END:VEVENT";
    lit "END:VCALENDAR";
    [] ].

(** How often [line] occurs among [lines]. *)
Definition count_line (line : str) (lines : list str) : nat :=
  length (filter (fun l => l = line) lines).

(** A run over twelve sources, [docs] in month [m] and the others empty. *)
Definition empty_days : gmap Z (list pyval) :=
  list_to_map ((fun m => (m, [])) <$> month_range).

Definition one_month_world (m : Z) (docs : list pyval) : world :=
  {| days := <[m := docs]> empty_days; output := None; console := [] |}.

(** ** Required fields *)

Definition required_fields : list str :=
  [lit "month"; lit "day"; lit "name"; lit "message"; lit "explanation"].

(** The first required field that [d] lacks, in the order the source
    looks them up. *)
Definition first_missing (d : gmap str pyval) : option str :=
  List.find (fun k => bool_decide (d !! k = None)) required_fields.

(** A document that loads: an empty one, or a mapping with the required
    fields. *)
Definition loadable (doc : pyval) : Prop :=
  doc = VNone \/ exists d, doc = VDict d /\ first_missing d = None.

(** A block with every required field but [message]. *)
Definition no_message_dict : gmap str pyval :=
  list_to_map
    [ (lit "month", VInt 3); (lit "day", VInt 1);
      (lit "name", VStr (lit "B")); (lit "explanation", VStr (lit "E")) ].

Definition no_message_doc : pyval := VDict no_message_dict.

(** What it would take for the error of a failed load to name the source:
    a way to read the month off the exception, right for a block placed
    in any of the twelve sources. *)
Definition error_names_source (doc : pyval) : Prop :=
  exists source_of : exn -> Z,
    forall m, 1 <= m <= 12 ->
      exists e, load_events (one_month_world m [doc]) = Raises e
                /\ source_of e = m.

(** A block whose [characters] is a string and whose [citations] is a
    number. *)
Definition not_a_list_dict : gmap str pyval :=
  list_to_map
    [ (lit "month", VInt 2); (lit "day", VInt 29);
      (lit "name", VStr (lit "Miyako Day"));
      (lit "message", VStr (lit "M"));
      (lit "explanation", VStr (lit "E"));
      (lit "characters", VStr (lit "not a list"));
      (lit "citations", VInt 3) ].

(** ** The canonical string of a UID *)

(** [z] in decimal, with a leading zero when that is a single character. *)
Definition zero_pad2 (z : Z) : str :=
  let s := str_of_int z in
  if (length s <? 2)%nat then lit "0" ++ s else s.

Definition canonical_string (m d : Z) (n : str) : str :=
  zero_pad2 m ++ lit "-" ++ zero_pad2 d ++ lit "-" ++ n.

Definition is_hex_char (c : Z) : Prop :=
  48 <= c <= 57 \/ 97 <= c <= 102.

(** ** The description of an event *)

(** The third part of a description, present when there are characters. *)
Definition characters_part (cs : list str) : list str :=
  match cs with
  | [] => []
  | _ :: _ => [ics_escape (strip (lit "Characters: " ++ join (lit ", ") cs))]
  end.

(** The description whose second part is made from [second]. *)
Definition description_with (msg second : str) (cs : list str) : str :=
  join part_sep
    (ics_escape (strip msg) :: ics_escape (strip second) :: characters_part cs).

(** An event with an empty [explanation_short]. *)
Definition empty_short_event : CalendarEvent :=
  {| month := VInt 2; day := VInt 29; name := VStr (lit "Miyako Day");
     message := VStr (lit "M"); explanation := VStr (lit "E");
     explanation_short := VStr []; characters := []; citations := [] |}.

(** An event with both explanations and two characters. *)
Definition short_event : CalendarEvent :=
  {| month := VInt 5; day := VInt 14; name := VStr (lit "Koishi Day");
     message := VStr (lit " Hi; all ");
     explanation := VStr (lit "long, long text");
     explanation_short := VStr (lit " short, text ");
     characters := [VStr (lit "Koishi"); VStr (lit "Satori")];
     citations := [] |}.

(** ** The order of the loaded events *)

(** Strings in code point order, a proper prefix first. *)
Inductive lex_lt : str -> str -> Prop :=
  | lex_lt_nil b y : lex_lt [] (b :: y)
  | lex_lt_head a b x y : a < b -> lex_lt (a :: x) (b :: y)
  | lex_lt_tail a x y : lex_lt x y -> lex_lt (a :: x) (a :: y).

(** The key of an event whose month and day are integers and whose name
    is a string. *)
Definition typed_key (e : CalendarEvent) : option (Z * Z * str) :=
  match month e, day e, name e with
  | VInt m, VInt d, VStr n => Some (m, d, n)
  | _, _, _ => None
  end.

Definition key3_lt (a b : Z * Z * str) : Prop :=
  let '(m1, d1, n1) := a in
  let '(m2, d2, n2) := b in
  m1 < m2 \/ (m1 = m2 /\ (d1 < d2 \/ (d1 = d2 /\ lex_lt n1 n2))).

Definition key3_le (a b : Z * Z * str) : Prop := key3_lt a b \/ a = b.

(** [a] may stand before [b] in a list sorted by (month, day, name). *)
Definition event_le (a b : CalendarEvent) : Prop :=
  exists ka kb, typed_key a = Some ka /\ typed_key b = Some kb /\ key3_le ka kb.

(** The events of [l] with key [k], in the order of [l]. *)
Definition with_key (k : Z * Z * str) (l : list CalendarEvent)
  : list CalendarEvent :=
  filter (fun e => typed_key e = Some k) l.

(** [out] is the stable sort of [l] by (month, day, name): the same
    events, in ascending key order, those of equal key in their order in
    [l]. *)
Definition stable_sort_of (l out : list CalendarEvent) : Prop :=
  Permutation l out
  /\ StronglySorted event_le out
  /\ forall k, with_key k out = with_key k l.

Definition sample_event (m d : Z) (n : string) : CalendarEvent :=
  {| month := VInt m; day := VInt d; name := VStr (lit n);
     message := VStr (lit "M"); explanation := VStr (lit "E");
     explanation_short := VNone; characters := []; citations := [] |}.

Definition sample_doc (m d : Z) (n : string) : pyval :=
  VDict (list_to_map
    [ (lit "month", VInt m); (lit "day", VInt d); (lit "name", VStr (lit n));
      (lit "message", VStr (lit "M")); (lit "explanation", VStr (lit "E")) ]).

(** The month and day of [e] are integers and its name is a string. *)
Definition typed (e : CalendarEvent) : Prop := is_Some (typed_key e).

Definition sample_events : list CalendarEvent :=
  [sample_event 3 1 "B"; sample_event 1 5 "A"; sample_event 1 5 "Z"].

Definition sample_sorted : list CalendarEvent :=
  [sample_event 1 5 "A"; sample_event 1 5 "Z"; sample_event 3 1 "B"].

Definition sample_world : world :=
  one_month_world 1 [sample_doc 3 1 "B"; sample_doc 1 5 "A"; sample_doc 1 5 "Z"].

(** ** Folded lines *)

(** [m] occurs in [s]. *)
Definition occurs (m s : str) : Prop := exists pre post, s = pre ++ m ++ post.

(** A piece of a folded line: whole code points, 1 to 75 octets of them. *)
Definition fold_part (p : str) : Prop :=
  exists c, utf8_encode p = Returns c /\ (1 <= length c <= 75)%nat.

(** The number of octets of [s] in UTF-8. *)
Definition octets (s : str) : outcome nat := length <$> utf8_encode s.

(** Undoing the folds: every [CRLF] followed by a space is taken out. *)
Definition unfold_line (s : str) : str := replace s fold_marker [].

(** A line of 76 octets that begins with [CRLF] and a space. *)
Definition marker_line : str := fold_marker ++ replicate 73 97.

(** A line of 150 letters. *)
Definition long_line : str := replicate 150 97.

(** [occurs], decided. *)
Fixpoint occursb (m s : str) : bool :=
  starts_with m s
  || match s with
     | [] => false
     | _ :: s' => occursb m s'
     end.

(** A line of 87 octets whose bytes 74 to 76 are one three-byte
    character. *)
Definition kana_line : str := replicate 74 97 ++ [0x3042] ++ replicate 10 98.

Definition kana_bytes : bytes :=
  replicate 74 97 ++ [0xE3; 0x81; 0x82] ++ replicate 10 98.

(** * Further specification-side definitions *)

(** ** Escaped text *)

(** One of the four characters that [ics_escape] rewrites. *)
Definition special (c : Z) : bool :=
  (c =? BACKSLASH) || (c =? 59) || (c =? 44) || (c =? LF).

(** Reading escaped text back: a backslash and the character after it
    stand for that character, or for a newline when it is the letter n. *)
Fixpoint unescape (s : str) : str :=
  match s with
  | [] => []
  | c :: rest =>
      if c =? BACKSLASH then
        match rest with
        | e :: rest' => (if e =? 110 then LF else e) :: unescape rest'
        | [] => [c]
        end
      else c :: unescape rest
  end.

(** [s] is a run of plain characters and of escape pairs: backslash
    followed by backslash, semicolon, comma or the letter n. *)
Fixpoint well_escaped (s : str) : bool :=
  match s with
  | [] => true
  | c :: rest =>
      if c =? BACKSLASH then
        match rest with
        | e :: rest' =>
            ((e =? BACKSLASH) || (e =? 59) || (e =? 44) || (e =? 110))
            && well_escaped rest'
        | [] => false
        end
      else negb (special c) && well_escaped rest
  end.

(** ** Sizes of folded pieces *)

(** [p] encodes, to between [lo] and [hi] octets. *)
Definition octets_between (lo hi : nat) (p : str) : Prop :=
  exists c, utf8_encode p = Returns c /\ (lo <= length c <= hi)%nat.

(** Every code point of [s] is one UTF-8 can carry. *)
Definition encodable (s : str) : Prop := Forall (fun c => scalar c = true) s.

(** A line of 163 octets: 73 letters, a four-byte character over bytes
    73 to 76, then 86 letters. *)
Definition emoji_line : str :=
  replicate 73 97 ++ [0x1F600] ++ replicate 86 98.

Definition emoji_bytes : bytes :=
  replicate 73 97 ++ [0xF0; 0x9F; 0x98; 0x80] ++ replicate 86 98.

(** ** Keys of a block *)

(** The keys that [parse_event] reads. *)
Definition known_keys : list str :=
  required_fields
  ++ [lit "explanation_short"; lit "characters"; lit "citations"].

(** A block with a key the loader does not know. *)
Definition extra_key_dict : gmap str pyval :=
  <[lit "color" := VStr (lit "red")]> not_a_list_dict.


(** ** What is read from the sources *)

(** The documents of source [m], none if it is missing. *)
Definition source_docs (w : world) (m : Z) : list pyval :=
  default [] (days w !! m).

(** The documents of the twelve sources, in the order read. *)
Definition all_docs (w : world) : list pyval :=
  flat_map (source_docs w) month_range.

(** A document that is not the empty one, which the loader skips. *)
Definition nonempty_doc (doc : pyval) : bool :=
  match doc with
  | VNone => false
  | _ => true
  end.

(** The twelve empty sources, and a thirteenth source that is not read. *)
Definition stray_world : world :=
  {| days := <[13 := [VInt 0]]> (<[2 := [VNone; miyako_doc; VNone]]> empty_days);
     output := Some [1]; console := [lit "old"] |}.

(** A run in which the fifth source is missing. *)
Definition missing_source_world : world :=
  {| days := delete 5 (<[2 := [miyako_doc]]> empty_days);
     output := None; console := [] |}.

(** [a] stands strictly before [b] in the order of the keys. *)
Definition event_lt (a b : CalendarEvent) : Prop :=
  exists ka kb, typed_key a = Some ka /\ typed_key b = Some kb /\ key3_lt ka kb.


(** ** Well-formed records *)






(** ** Line ends *)

(** Every newline of [s] stands right after a carriage return; [prev_cr]
    tells whether the character before [s] is one. *)
Fixpoint no_bare_lf_from (prev_cr : bool) (s : str) : bool :=
  match s with
  | [] => true
  | c :: s' => (negb (c =? LF) || prev_cr) && no_bare_lf_from (c =? CR) s'
  end.

Definition crlf_only (s : str) : bool := no_bare_lf_from false s.

(** An event on the 30th of February, and one with a newline and a
    carriage return in its texts. *)
Definition feb30_event : CalendarEvent :=
  {| month := VInt 2; day := VInt 30; name := VStr (lit "Nobody Day");
     message := VStr (lit "M"); explanation := VStr (lit "E");
     explanation_short := VNone; characters := []; citations := [] |}.

Definition feb30_event_doc : pyval :=
  VDict (list_to_map
    [ (lit "month", VInt 2); (lit "day", VInt 30);
      (lit "name", VStr (lit "Nobody Day"));
      (lit "message", VStr (lit "M"));
      (lit "explanation", VStr (lit "E")) ]).

Definition multiline_event : CalendarEvent :=
  {| month := VInt 9; day := VInt 9; name := VStr (lit "Cirno" ++ [LF] ++ lit "Day");
     message := VStr (lit "one" ++ [CR; LF] ++ lit "two");
     explanation := VStr (replicate 100 0x3042);
     explanation_short := VNone;
     characters := [VStr (lit "Cirno")]; citations := [] |}.

(** The eight lines that [build_vevent] folds, lines 107-116. *)
Definition vevent_lines (uid dtstart summary description : str) : list str :=
  [ lit "BEGIN:VEVENT";
    lit "UID:" ++ uid;
    lit "DTSTART;VALUE=DATE:" ++ dtstart;
    lit "SUMMARY:" ++ summary;
    lit "DESCRIPTION:" ++ description;
    lit "RRULE:FREQ=YEARLY";
    lit "TRANSP:TRANSPARENT";
    lit "END:VEVENT" ].

(** ** Calendars *)

(** [build_vevent] returns on [e]. *)
Definition renders (e : CalendarEvent) : Prop :=
  exists v, build_vevent e = Returns v.

(** The calendar without events: between the header and the closing line
    stands an empty line. *)
Definition empty_ics : str :=
  ics_header ++ CRLF ++ CRLF ++ lit "END:VCALENDAR" ++ CRLF.

(** Twelve sources that hold empty documents only. *)
Definition blank_world : world :=
  {| days := <[3 := [VNone; VNone]]> empty_days; output := None; console := [] |}.



(** * Properties *)

(** ** Escaping *)

Lemma replace_one_char (s : str) (a : Z) (new : str) :
  replace s [a] new = flat_map (fun c => if c =? a then new else [c]) s.
Proof.
  unfold replace. induction s as [|c s IH]; [reflexivity|].
  cbn [replace_from starts_with flat_map length Nat.sub].
  rewrite (Z.eqb_sym a c), andb_true_r.
  destruct (c =? a); cbn [app]; now rewrite IH.
Qed.

Lemma escape_char_chain (c : Z) :
  flat_map (fun c3 => if c3 =? LF then lit "\n" else [c3])
    (flat_map (fun c2 => if c2 =? 44 then lit "\," else [c2])
      (flat_map (fun c1 => if c1 =? 59 then lit "\;" else [c1])
        (if c =? BACKSLASH then lit "\\" else [c])))
  = escape_char c.
Proof.
  unfold escape_char, BACKSLASH, LF.
  destruct (Z.eqb_spec c 92) as [->|H92]; [reflexivity|].
  destruct (Z.eqb_spec c 59) as [->|H59]; [reflexivity|].
  cbn [flat_map app]. rewrite (proj2 (Z.eqb_neq c 59) H59). cbn [flat_map app].
  destruct (Z.eqb_spec c 44) as [->|H44]; [reflexivity|].
  cbn [flat_map app].
  destruct (Z.eqb_spec c 10) as [->|H10]; reflexivity.
Qed.

Lemma ics_escape_flat_map (text : str) :
  ics_escape text = flat_map escape_char text.
Proof.
  unfold ics_escape.
  change (lit "\") with [BACKSLASH]. change (lit ";") with [59].
  change (lit ",") with [44].
  rewrite !replace_one_char.
  induction text as [|c text IH]; [reflexivity|].
  cbn [flat_map]. now rewrite !flat_map_app, IH, escape_char_chain.
Qed.

(** No newline is left in escaped text, so the lines that [build_vevent]
    folds hold none either. *)
Lemma ics_escape_no_newline (text : str) : LF ∉ ics_escape text.
Proof.
  rewrite ics_escape_flat_map. induction text as [|c text IH];
    [apply not_elem_of_nil|].
  cbn [flat_map]. rewrite elem_of_app. intros [Hc|Ht]; [|now apply IH].
  unfold escape_char, BACKSLASH, LF in Hc.
  destruct (Z.eqb_spec c 92); [|destruct (Z.eqb_spec c 59);
    [|destruct (Z.eqb_spec c 44); [|destruct (Z.eqb_spec c 10)]]];
    cbn [lit] in Hc;
    repeat (apply elem_of_cons in Hc as [Hc|Hc]; [cbn in Hc; lia|]);
    now apply not_elem_of_nil in Hc.
Qed.

(** C3.  [ics_escape] is the homomorphism that sends backslash, semicolon,
    comma and newline to their two-character escapes and every other
    character to itself; the backslashes it introduces are not escaped
    again, so [ics_escape "a,b"] is [a\,b]. *)
Theorem ics_escape_homomorphism :
  (forall text : str, ics_escape text = flat_map escape_char text)
  /\ ics_escape (lit "a,b") = lit "a\,b".
Proof. split; [exact ics_escape_flat_map|reflexivity]. Qed.

(** ** End to end *)

(** C1.  The record for month 2, day 29, "Miyako Day", message "M",
    explanation "E", no short explanation and no characters is what
    [parse_event] builds from such a block, and [build_ics] on it alone
    gives a VCALENDAR with one VEVENT whose lines are the ones listed,
    among them the DTSTART, SUMMARY, DESCRIPTION and RRULE lines. *)
Theorem build_ics_miyako :
  parse_event miyako_doc = Returns miyako
  /\ exists ics,
       build_ics [miyako] = Returns ics
       /\ split ics CRLF = miyako_lines
       /\ count_line (lit "BEGIN:VEVENT") (split ics CRLF) = 1%nat
       /\ count_line (lit "END:VEVENT") (split ics CRLF) = 1%nat
       /\ lit "DTSTART;VALUE=DATE:20240229" ∈ split ics CRLF
       /\ lit "SUMMARY:Miyako Day" ∈ split ics CRLF
       /\ lit "DESCRIPTION:M\n\nE" ∈ split ics CRLF
       /\ lit "RRULE:FREQ=YEARLY" ∈ split ics CRLF.
Proof.
  split; [vm_compute; reflexivity|].
  eexists. split; [vm_compute; reflexivity|].
  split; [vm_compute; reflexivity|].
  split; [vm_compute; reflexivity|].
  split; [vm_compute; reflexivity|].
  repeat split; apply list_elem_of_In; vm_compute; tauto.
Qed.

(** The same run through [main]: the file written holds that calendar. *)
Lemma main_miyako :
  let run := main (one_month_world 2 [miyako_doc]) in
  fst run = Returns tt
  /\ (utf8_decode <$> output (snd run)) = Some (build_ics [miyako]).
Proof. split; vm_compute; reflexivity. Qed.

(** ** Parsing a block *)

Lemma getitem_Some (d : gmap str pyval) (k : str) (v : pyval) :
  d !! k = Some v -> getitem d k = Returns v.
Proof. unfold getitem. now intros ->. Qed.

Lemma getitem_None (d : gmap str pyval) (k : str) :
  d !! k = None -> getitem d k = Raises (KeyError k).
Proof. unfold getitem. now intros ->. Qed.

Lemma first_missing_None (d : gmap str pyval) :
  first_missing d = None ->
  exists vm vd vn vg ve,
    d !! lit "month" = Some vm /\ d !! lit "day" = Some vd
    /\ d !! lit "name" = Some vn /\ d !! lit "message" = Some vg
    /\ d !! lit "explanation" = Some ve.
Proof.
  unfold first_missing, required_fields. cbn [List.find].
  repeat case_bool_decide; try discriminate. intros _.
  destruct (d !! lit "month") as [vm|] eqn:?; [|congruence].
  destruct (d !! lit "day") as [vd|] eqn:?; [|congruence].
  destruct (d !! lit "name") as [vn|] eqn:?; [|congruence].
  destruct (d !! lit "message") as [vg|] eqn:?; [|congruence].
  destruct (d !! lit "explanation") as [ve|] eqn:?; [|congruence].
  now exists vm, vd, vn, vg, ve.
Qed.

(** A block with the required fields parses, field by field. *)
Lemma parse_event_complete (d : gmap str pyval) :
  first_missing d = None ->
  exists vm vd vn vg ve,
    parse_event (VDict d)
    = Returns {| month := vm; day := vd; name := vn; message := vg;
                 explanation := ve;
                 explanation_short := dict_get d (lit "explanation_short");
                 characters := list_or_empty (dict_get d (lit "characters"));
                 citations := list_or_empty (dict_get d (lit "citations")) |}.
Proof.
  intros H. destruct (first_missing_None d H)
    as (vm & vd & vn & vg & ve & Hm & Hd & Hn & Hg & He).
  exists vm, vd, vn, vg, ve. unfold parse_event.
  rewrite (getitem_Some _ _ _ Hm), (getitem_Some _ _ _ Hd),
    (getitem_Some _ _ _ Hn), (getitem_Some _ _ _ Hg), (getitem_Some _ _ _ He).
  reflexivity.
Qed.

(** A block without one fails on the first such field. *)
Lemma parse_event_missing (d : gmap str pyval) (k : str) :
  first_missing d = Some k -> parse_event (VDict d) = Raises (KeyError k).
Proof.
  unfold first_missing, required_fields. cbn [List.find]. unfold parse_event.
  repeat case_bool_decide; intros [= <-];
    repeat match goal with
      | H : ?d !! ?k = None |- _ => rewrite (getitem_None _ _ H)
      | H : ?d !! ?k <> None |- _ =>
          let v := fresh "v" in
          destruct (d !! k) as [v|] eqn:?; [clear H|congruence]
      | H : ?d !! ?k = Some _ |- _ => rewrite (getitem_Some _ _ _ H); clear H
      end; reflexivity.
Qed.

(** C9.  In a block with the required fields, a [characters] or
    [citations] value that is not a list does not make parsing fail: the
    event is built and that field of it is the empty list. *)
Theorem parse_event_coerces_non_list (d : gmap str pyval)
  (Hrequired : first_missing d = None) :
  exists e,
    parse_event (VDict d) = Returns e
    /\ (forall v, d !! lit "characters" = Some v ->
                  (forall l, v <> VList l) -> characters e = [])
    /\ (forall v, d !! lit "citations" = Some v ->
                  (forall l, v <> VList l) -> citations e = []).
Proof.
  destruct (parse_event_complete d Hrequired)
    as (vm & vd & vn & vg & ve & Hparse).
  eexists. split; [exact Hparse|].
  cbn [characters citations]. unfold dict_get.
  split; intros v -> Hv; cbn [default]; destruct v; try reflexivity;
    exfalso; eapply Hv; reflexivity.
Qed.

Lemma parse_event_coerces_non_list_witness :
  exists e,
    parse_event (VDict not_a_list_dict) = Returns e
    /\ (forall v, not_a_list_dict !! lit "characters" = Some v ->
                  (forall l, v <> VList l) -> characters e = [])
    /\ (forall v, not_a_list_dict !! lit "citations" = Some v ->
                  (forall l, v <> VList l) -> citations e = []).
Proof. apply (parse_event_coerces_non_list not_a_list_dict). reflexivity. Defined.

(** On the sample block the string is indeed dropped. *)
Lemma parse_event_not_a_list :
  not_a_list_dict !! lit "characters" = Some (VStr (lit "not a list"))
  /\ (characters <$> parse_event (VDict not_a_list_dict)) = Returns []
  /\ (citations <$> parse_event (VDict not_a_list_dict)) = Returns [].
Proof. split; [|split]; vm_compute; reflexivity. Qed.

(** ** Loading *)

Lemma bind_Returns {A B} (m : outcome A) (k : A -> outcome B) (b : B) :
  bind m k = Returns b -> exists a, m = Returns a /\ k a = Returns b.
Proof. destruct m; cbn; try discriminate. eauto. Qed.

Lemma foldM_app {A B} (body : B -> A -> outcome B) (acc : B) (l1 l2 : list A) :
  foldM body acc (l1 ++ l2)
  = let! acc' := foldM body acc l1 in foldM body acc' l2.
Proof.
  revert acc. induction l1 as [|x l1 IH]; intros acc; [reflexivity|].
  cbn [foldM app]. destruct (body acc x); cbn [bind]; auto.
Qed.

Lemma parse_event_settled (doc : pyval) : settled (parse_event doc).
Proof.
  destruct doc; try (right; eexists; reflexivity).
  destruct (first_missing d) as [k|] eqn:H.
  - right. exists (KeyError k). now apply parse_event_missing.
  - left. destruct (parse_event_complete d H) as (? & ? & ? & ? & ? & ->). eauto.
Qed.

Lemma load_doc_settled (events : list CalendarEvent) (doc : pyval) :
  settled (load_doc events doc).
Proof.
  assert (H : settled (let! e := parse_event doc in Returns (events ++ [e]))).
  { destruct (parse_event_settled doc) as [[e ->]|[e ->]]; cbn [bind];
      [left|right]; eauto. }
  destruct doc; try exact H. left. cbn. eauto.
Qed.

Lemma foldM_settled {A B} (body : B -> A -> outcome B) :
  (forall acc x, settled (body acc x)) ->
  forall xs acc, settled (foldM body acc xs).
Proof.
  intros Hbody xs. induction xs as [|x xs IH]; intros acc; cbn [foldM].
  - left. eauto.
  - destruct (Hbody acc x) as [[a ->]|[e ->]]; cbn [bind]; [apply IH|].
    right. eauto.
Qed.

Lemma load_month_settled (w : world) (events : list CalendarEvent) (m : Z) :
  settled (load_month w events m).
Proof.
  unfold load_month, open_yaml. destruct (days w !! m); cbn [bind].
  - apply foldM_settled, load_doc_settled.
  - right. eauto.
Qed.

Lemma collect_events_settled (w : world) : settled (collect_events w).
Proof. apply foldM_settled, load_month_settled. Qed.

(** A block that does not parse stops the loop over its source. *)
Lemma foldM_load_doc_fails (docs : list pyval) (doc : pyval) :
  doc ∈ docs -> doc <> VNone ->
  (forall e, parse_event doc <> Returns e) ->
  forall events evs, foldM load_doc events docs <> Returns evs.
Proof.
  intros Hin Hnone Hfail. induction Hin as [doc docs|doc doc' docs Hin IH];
    intros events evs; cbn [foldM]; intros H.
  - apply bind_Returns in H as (a & Ha & _). unfold load_doc in Ha.
    destruct doc; try congruence;
      apply bind_Returns in Ha as (e & He & _); now apply (Hfail e).
  - apply bind_Returns in H as (a & _ & Ha). now apply (IH Hnone Hfail a evs).
Qed.

Lemma foldM_load_month_fails (w : world) (m : Z) (docs : list pyval) (doc : pyval) :
  days w !! m = Some docs -> doc ∈ docs -> doc <> VNone ->
  (forall e, parse_event doc <> Returns e) ->
  forall months, m ∈ months ->
  forall events evs, foldM (load_month w) events months <> Returns evs.
Proof.
  intros Hdocs Hin Hnone Hfail months Hm.
  induction Hm as [m months|m m' months Hm IH]; intros events evs;
    cbn [foldM]; intros H.
  - apply bind_Returns in H as (a & Ha & _). unfold load_month, open_yaml in Ha.
    rewrite Hdocs in Ha. cbn [bind] in Ha.
    now apply (foldM_load_doc_fails docs doc Hin Hnone Hfail events a).
  - apply bind_Returns in H as (a & _ & Ha). now apply (IH Hdocs a evs).
Qed.

(** Documents that load are appended one after the other. *)
Lemma foldM_load_doc_loadable (docs : list pyval) :
  Forall loadable docs ->
  forall events, exists evs, foldM load_doc events docs = Returns evs.
Proof.
  induction 1 as [|doc docs Hdoc _ IH]; intros events; cbn [foldM]; [eauto|].
  destruct Hdoc as [->|(d & -> & Hd)]; cbn [load_doc bind]; [apply IH|].
  destruct (parse_event_complete d Hd) as (? & ? & ? & ? & ? & ->).
  cbn [bind]. apply IH.
Qed.

Lemma foldM_load_month_loadable (w : world) (months : list Z) :
  (forall m, m ∈ months ->
     exists docs, days w !! m = Some docs /\ Forall loadable docs) ->
  forall events, exists evs, foldM (load_month w) events months = Returns evs.
Proof.
  induction months as [|m months IH]; intros Hall events; cbn [foldM]; [eauto|].
  destruct (Hall m) as (docs & Hdocs & Hok); [left|].
  unfold load_month at 1, open_yaml. rewrite Hdocs. cbn [bind].
  destruct (foldM_load_doc_loadable docs Hok events) as (evs & ->). cbn [bind].
  apply IH. intros m' Hm'. apply Hall. now right.
Qed.

Lemma month_range_split (m : Z) :
  m ∈ month_range ->
  month_range = seqZ 1 (m - 1) ++ m :: seqZ (m + 1) (12 - m).
Proof.
  unfold month_range. intros Hm. apply elem_of_seqZ in Hm.
  replace 12 with ((m - 1) + (1 + (12 - m))) at 1 by lia.
  rewrite seqZ_app by lia. f_equal.
  replace (1 + (m - 1)) with m by lia.
  rewrite seqZ_cons by lia. do 2 f_equal; lia.
Qed.

Lemma main_load_fails (w : world) (e : exn) :
  load_events w = Raises e -> main w = (Raises e, w).
Proof. unfold main. now intros ->. Qed.

(** C8, as the code has it.  A block that lacks a required field makes
    [parse_event] raise [KeyError] with the first missing field of month,
    day, name, message, explanation: the exception names the field and
    nothing else.  A run that holds such a block fails while loading, and
    [main] ends with that exception and the world as it was: no file
    written, nothing printed.  When every earlier source exists and every
    earlier block loads, the exception is this block's [KeyError]. *)
Theorem missing_field_aborts_run (w : world) (m : Z) (pre post : list pyval)
  (d : gmap str pyval) (k : str)
  (Hm : 1 <= m <= 12)
  (Hsource : days w !! m = Some (pre ++ VDict d :: post))
  (Hmissing : first_missing d = Some k) :
  parse_event (VDict d) = Raises (KeyError k)
  /\ (exists e, load_events w = Raises e /\ main w = (Raises e, w))
  /\ ((forall m', 1 <= m' < m ->
         exists docs, days w !! m' = Some docs /\ Forall loadable docs) ->
      Forall loadable pre ->
      load_events w = Raises (KeyError k)
      /\ main w = (Raises (KeyError k), w)).
Proof.
  assert (Hparse := parse_event_missing d k Hmissing).
  assert (Hrange : m ∈ month_range) by (apply elem_of_seqZ; lia).
  split; [exact Hparse|]. split.
  - destruct (collect_events_settled w) as [[evs Hevs]|[e He]].
    + exfalso. unfold collect_events in Hevs.
      apply (foldM_load_month_fails w m _ (VDict d) Hsource) in Hevs;
        [exact Hevs| |discriminate| |exact Hrange].
      * apply elem_of_app. right. left.
      * intros e. rewrite Hparse. discriminate.
    + exists e. assert (Hload : load_events w = Raises e).
      { unfold load_events. now rewrite He. }
      split; [exact Hload|now apply main_load_fails].
  - intros Hbefore Hpre.
    assert (Hload : load_events w = Raises (KeyError k)).
    { unfold load_events, collect_events.
      rewrite (month_range_split m Hrange), foldM_app.
      destruct (foldM_load_month_loadable w (seqZ 1 (m - 1))) with (events := @nil CalendarEvent)
        as (evs1 & ->).
      { intros m' Hm'. apply elem_of_seqZ in Hm'. apply Hbefore. lia. }
      cbn [bind foldM]. unfold load_month at 1, open_yaml.
      rewrite Hsource. cbn [bind]. rewrite foldM_app.
      destruct (foldM_load_doc_loadable pre Hpre evs1) as (evs2 & ->).
      cbn [bind foldM load_doc]. rewrite Hparse. reflexivity. }
    split; [exact Hload|now apply main_load_fails].
Qed.

Lemma missing_field_aborts_run_witness :
  let w := one_month_world 3 [VNone; no_message_doc] in
  parse_event no_message_doc = Raises (KeyError (lit "message"))
  /\ load_events w = Raises (KeyError (lit "message"))
  /\ main w = (Raises (KeyError (lit "message")), w).
Proof.
  intros w.
  destruct (missing_field_aborts_run w 3 [VNone] [] no_message_dict
              (lit "message")) as (Hparse & _ & Hfirst).
  - lia.
  - reflexivity.
  - reflexivity.
  - split; [exact Hparse|]. apply Hfirst.
    + intros m' Hm'. exists [].
      assert (Hcases : m' = 1 \/ m' = 2) by lia.
      destruct Hcases as [-> | ->]; split; (reflexivity || constructor).
    + constructor; [now left|constructor].
Defined.

(** The block without [message] fails in the same way from the third
    source and from the seventh, so no reading of the exception tells the
    source. *)
Lemma key_error_does_not_name_source :
  load_events (one_month_world 3 [no_message_doc])
    = Raises (KeyError (lit "message"))
  /\ load_events (one_month_world 7 [no_message_doc])
    = Raises (KeyError (lit "message"))
  /\ ~ error_names_source no_message_doc.
Proof.
  assert (H3 : load_events (one_month_world 3 [no_message_doc])
               = Raises (KeyError (lit "message"))) by (vm_compute; reflexivity).
  assert (H7 : load_events (one_month_world 7 [no_message_doc])
               = Raises (KeyError (lit "message"))) by (vm_compute; reflexivity).
  split; [exact H3|]. split; [exact H7|].
  intros (source_of & Hsrc).
  destruct (Hsrc 3) as (e3 & He3 & Hs3); [lia|].
  destruct (Hsrc 7) as (e7 & He7 & Hs7); [lia|].
  rewrite H3 in He3. rewrite H7 in He7.
  injection He3 as <-. injection He7 as <-. lia.
Qed.

(** ** SHA-256 and the UID *)

(** The digests of the empty message and of "abc" given in FIPS 180-4,
    and a message that takes two blocks. *)
Lemma sha256_test_vectors :
  SHA256.hexdigest []
  = lit "e3b0c44298fc1c149afbf4c8996fb92427ae41e4649b934ca495991b7852b855"
  /\ SHA256.hexdigest (lit "abc")
  = lit "ba7816bf8f01cfea414140de5dae2223b00361a396177a9cb410ff61f20015ad"
  /\ SHA256.hexdigest
       (lit "abcdbcdecdefdefgefghfghighijhijkijkljklmklmnlmnomnopnopq")
  = lit "248d6a61d20638b8e5c026930c3e6039a33ce45964ff2167f6ecedd419db06c1".
Proof. split; [|split]; vm_compute; reflexivity. Qed.

Lemma round_length (st : list Z) (kw : Z * Z) :
  length st = 8%nat -> length (SHA256.round st kw) = 8%nat.
Proof.
  intros H. do 9 (destruct st as [|? st]; try discriminate). reflexivity.
Qed.

Lemma fold_round_length (kws : list (Z * Z)) (st : list Z) :
  length st = 8%nat -> length (fold_left SHA256.round kws st) = 8%nat.
Proof.
  revert st. induction kws as [|kw kws IH]; intros st H; [exact H|].
  cbn [fold_left]. apply IH. now apply round_length.
Qed.

Lemma compress_length (h : list Z) (block : bytes) :
  length h = 8%nat -> length (SHA256.compress h block) = 8%nat.
Proof.
  intros H. unfold SHA256.compress.
  rewrite length_zip_with, fold_round_length by exact H. lia.
Qed.

Lemma blocks_length (n : nat) (h : list Z) (bs : bytes) :
  length h = 8%nat -> length (SHA256.blocks n h bs) = 8%nat.
Proof.
  revert h bs. induction n as [|n IH]; intros h bs H; [exact H|].
  cbn [SHA256.blocks]. apply IH. now apply compress_length.
Qed.

Lemma hex_length (n : nat) (x : Z) : length (SHA256.hex n x) = n.
Proof.
  revert x. induction n as [|n IH]; intros x; [reflexivity|].
  cbn [SHA256.hex]. rewrite length_app, IH. cbn. lia.
Qed.

Lemma hex_digit_is_hex (d : Z) :
  0 <= d < 16 -> is_hex_char (SHA256.hex_digit d).
Proof.
  intros H. unfold SHA256.hex_digit, is_hex_char.
  destruct (Z.ltb_spec d 10); lia.
Qed.

Lemma hex_is_hex (n : nat) (x : Z) : Forall is_hex_char (SHA256.hex n x).
Proof.
  revert x. induction n as [|n IH]; intros x; [constructor|].
  cbn [SHA256.hex]. apply Forall_app. split; [apply IH|].
  apply Forall_singleton, hex_digit_is_hex, Z.mod_pos_bound. lia.
Qed.

Lemma hexdigest_length (msg : bytes) : length (SHA256.hexdigest msg) = 64%nat.
Proof.
  unfold SHA256.hexdigest, SHA256.digest_words.
  assert (H : length (SHA256.blocks (length (SHA256.pad msg) / 64)
                        SHA256.H0 (SHA256.pad msg)) = 8%nat)
    by now apply blocks_length.
  revert H. generalize (SHA256.blocks (length (SHA256.pad msg) / 64)
                          SHA256.H0 (SHA256.pad msg)).
  intros ws H. do 9 (destruct ws as [|? ws]; try discriminate).
  cbn [flat_map]. rewrite !length_app, !hex_length. reflexivity.
Qed.

Lemma hexdigest_is_hex (msg : bytes) : Forall is_hex_char (SHA256.hexdigest msg).
Proof.
  unfold SHA256.hexdigest. induction (SHA256.digest_words msg) as [|w ws IH];
    [constructor|].
  cbn [flat_map]. apply Forall_app. split; [apply hex_is_hex|exact IH].
Qed.

(** ** Formatting integers *)

Lemma decimal_from_length (fuel : nat) (n : Z) (acc : str) :
  (length acc + Nat.min fuel 1 <= length (decimal_from fuel n acc))%nat.
Proof.
  revert n acc. induction fuel as [|fuel IH]; intros n acc; cbn [decimal_from];
    [lia|].
  destruct (n <? 10); [cbn [length]; lia|].
  specialize (IH (n / 10) ((48 + n mod 10) :: acc)). cbn [length] in IH. lia.
Qed.

Lemma decimal_nonempty (n : Z) : (1 <= length (decimal n))%nat.
Proof.
  unfold decimal.
  pose proof (decimal_from_length (S (Z.to_nat (Z.log2 n))) n []) as H.
  cbn [length] in H. lia.
Qed.

(** [format(z, "02d")] is the zero-padded decimal of the specification. *)
Lemma format_02d_int_zero_pad (z : Z) : format_02d_int z = zero_pad2 z.
Proof.
  unfold format_02d_int, zero_pad2, str_of_int.
  destruct (Z.ltb_spec z 0) as [Hneg|Hpos].
  - replace (Z.abs z) with (- z) by lia.
    pose proof (decimal_nonempty (- z)) as Hlen.
    cbn [lit length app]. 
    replace (2 - 1 - length (decimal (- z)))%nat with 0%nat by lia.
    destruct (Nat.ltb_spec (S (length (decimal (- z)))) 2); [lia|reflexivity].
  - replace (Z.abs z) with z by lia.
    pose proof (decimal_nonempty z) as Hlen. cbn [length app Nat.sub].
    destruct (Nat.ltb_spec (length (decimal z)) 2) as [Hshort|Hlong].
    + replace (2 - length (decimal z))%nat with 1%nat by lia. reflexivity.
    + replace (2 - length (decimal z))%nat with 0%nat by lia. reflexivity.
Qed.

Lemma format_02d_samples :
  format_02d_int 5 = lit "05" /\ format_02d_int 12 = lit "12"
  /\ format_02d_int 0 = lit "00" /\ format_02d_int 123 = lit "123"
  /\ format_02d_int (- 5) = lit "-5" /\ str_of_int 2024 = lit "2024".
Proof. do 5 (split; [vm_compute; reflexivity|]). vm_compute. reflexivity. Qed.

(** C4.  For a record whose month and day are integers and whose name is
    text, [generate_uid] returns the first 16 hexadecimal characters of
    the SHA-256 digest of the UTF-8 bytes of "MM-DD-name", month and day
    zero-padded to two digits, followed by "@touhou-calendar"; a record
    with the same month, day and name gets the same UID whatever its other
    fields are. *)
Theorem generate_uid_spec (event other : CalendarEvent) (m d : Z) (n : str)
  (encoded : bytes)
  (Hmonth : month event = VInt m) (Hday : day event = VInt d)
  (Hname : name event = VStr n)
  (Hencoded : utf8_encode (canonical_string m d n) = Returns encoded) :
  let hash_hex := take 16 (SHA256.hexdigest encoded) in
  generate_uid event = Returns (hash_hex ++ lit "@touhou-calendar")
  /\ length hash_hex = 16%nat
  /\ Forall is_hex_char hash_hex
  /\ (month other = month event -> day other = day event ->
      name other = name event -> generate_uid other = generate_uid event).
Proof.
  intros hash_hex. split; [|split; [|split]].
  - unfold generate_uid. rewrite Hmonth, Hday, Hname.
    cbn [format_02d format_str bind].
    rewrite !format_02d_int_zero_pad.
    change (zero_pad2 m ++ lit "-" ++ zero_pad2 d ++ lit "-" ++ n)
      with (canonical_string m d n).
    rewrite Hencoded. reflexivity.
  - unfold hash_hex. rewrite length_take, hexdigest_length. reflexivity.
  - apply Forall_take, hexdigest_is_hex.
  - intros Hm Hd Hn. unfold generate_uid. now rewrite Hm, Hd, Hn.
Qed.

Lemma generate_uid_spec_witness :
  generate_uid miyako = Returns (lit "1246b52e625d9167@touhou-calendar")
  /\ generate_uid
       {| month := VInt 2; day := VInt 29; name := VStr (lit "Miyako Day");
          message := VStr (lit "other"); explanation := VNone;
          explanation_short := VBool true; characters := [VInt 1];
          citations := [] |}
     = generate_uid miyako.
Proof.
  destruct (generate_uid_spec miyako
              {| month := VInt 2; day := VInt 29;
                 name := VStr (lit "Miyako Day");
                 message := VStr (lit "other"); explanation := VNone;
                 explanation_short := VBool true; characters := [VInt 1];
                 citations := [] |}
              2 29 (lit "Miyako Day") (lit "02-29-Miyako Day"))
    as (Huid & _ & _ & Hsame); try reflexivity.
  split; [|apply Hsame; reflexivity].
  rewrite Huid. vm_compute. reflexivity.
Defined.

(** ** Stripping *)

Lemma lstrip_idem (s : str) : lstrip (lstrip s) = lstrip s.
Proof.
  induction s as [|c s IH]; [reflexivity|]. cbn [lstrip].
  destruct (is_space c) eqn:Hc; [exact IH|]. cbn [lstrip]. now rewrite Hc.
Qed.

Lemma lstrip_snoc (s : str) (c : Z) :
  is_space c = false -> lstrip (s ++ [c]) = lstrip s ++ [c].
Proof.
  intros Hc. induction s as [|a s IH]; cbn [lstrip app].
  - now rewrite Hc.
  - destruct (is_space a); [exact IH|reflexivity].
Qed.

Lemma rstrip_idem (s : str) : rstrip (rstrip s) = rstrip s.
Proof. unfold rstrip. now rewrite reverse_involutive, lstrip_idem. Qed.

Lemma lstrip_head (s : str) :
  lstrip s = [] \/ exists c t, lstrip s = c :: t /\ is_space c = false.
Proof.
  induction s as [|c s IH]; [now left|]. cbn [lstrip].
  destruct (is_space c) eqn:Hc; [exact IH|]. right. now exists c, s.
Qed.

Lemma lstrip_rstrip_lstrip (s : str) :
  lstrip (rstrip (lstrip s)) = rstrip (lstrip s).
Proof.
  destruct (lstrip_head s) as [->|(c & t & -> & Hc)]; [reflexivity|].
  unfold rstrip. rewrite reverse_cons, (lstrip_snoc _ _ Hc), reverse_snoc.
  cbn [lstrip]. now rewrite Hc.
Qed.

Lemma strip_idem (s : str) : strip (strip s) = strip s.
Proof. unfold strip. now rewrite lstrip_rstrip_lstrip, rstrip_idem. Qed.

(** ** The description *)

Lemma mapM_join_item (cs : list str) :
  mapM join_item (VStr <$> cs) = Returns cs.
Proof.
  induction cs as [|c cs IH]; [reflexivity|].
  cbn [fmap list_fmap mapM join_item bind] in *. now rewrite IH.
Qed.

(** The description once it is known which explanation was chosen. *)
Lemma build_description_chosen (event : CalendarEvent) (msg chosen : str)
  (cs : list str) :
  message event = VStr msg ->
  characters event = VStr <$> cs ->
  py_or (explanation_short event) (explanation event) = Returns (VStr chosen) ->
  build_description event = Returns (description_with msg chosen cs).
Proof.
  intros Hmsg Hcs Hor. unfold build_description, description_with.
  rewrite Hor, Hmsg, Hcs. cbn [bind py_strip as_str_receiver app].
  destruct cs as [|c cs].
  - cbn [fmap list_fmap bind mapM py_strip as_str_receiver characters_part].
    now rewrite strip_idem.
  - unfold py_join. rewrite mapM_join_item.
    cbn [fmap list_fmap bind mapM py_strip as_str_receiver characters_part app].
    now rewrite strip_idem.
Qed.

Lemma mapM_cons_Returns {A B} (f : A -> outcome B) (x : A) (xs : list A)
  (ys : list B) :
  mapM f (x :: xs) = Returns ys ->
  exists y ys', f x = Returns y /\ mapM f xs = Returns ys' /\ ys = y :: ys'.
Proof.
  cbn [mapM]. intros H.
  apply bind_Returns in H as (y & Hy & H).
  apply bind_Returns in H as (ys' & Hys & [= <-]). now exists y, ys'.
Qed.

(** The DESCRIPTION line of a rendered event is the folded description. *)
Lemma build_vevent_description_line (event : CalendarEvent) (out : str) :
  build_vevent event = Returns out ->
  exists description line folded,
    build_description event = Returns description
    /\ ics_fold_line (lit "DESCRIPTION:" ++ description) = Returns line
    /\ folded !! 4%nat = Some line
    /\ out = join CRLF folded.
Proof.
  unfold build_vevent. intros H.
  apply bind_Returns in H as (dt & _ & H).
  apply bind_Returns in H as (description & Hdescription & H).
  apply bind_Returns in H as (summary & _ & H).
  apply bind_Returns in H as (uid & _ & H).
  apply bind_Returns in H as (folded & Hfolded & [= <-]).
  do 4 (apply mapM_cons_Returns in Hfolded as (? & ? & _ & Hfolded & ->)).
  apply mapM_cons_Returns in Hfolded as (line & ? & Hline & _ & ->).
  eexists description, line, _. split; [exact Hdescription|].
  split; [exact Hline|]. split; [|reflexivity]. reflexivity.
Qed.

(** C6, as the code has it.  On a record with text fields, when
    [explanation_short] is present and not empty the second part of the
    description is the trimmed, escaped [explanation_short]; when it is
    absent, or present but empty, the second part is the trimmed, escaped
    [explanation]. *)
Theorem description_prefers_nonempty_short (event : CalendarEvent)
  (msg expl : str) (cs : list str)
  (Hmessage : message event = VStr msg)
  (Hexplanation : explanation event = VStr expl)
  (Hcharacters : characters event = VStr <$> cs) :
  (forall short, explanation_short event = VStr short -> short <> [] ->
     build_description event = Returns (description_with msg short cs))
  /\ (explanation_short event = VNone \/ explanation_short event = VStr [] ->
      build_description event = Returns (description_with msg expl cs)).
Proof.
  split.
  - intros short Hshort Hne.
    apply build_description_chosen; [assumption..|].
    unfold py_or. rewrite Hshort. cbn [truthy bind].
    now rewrite bool_decide_eq_false_2.
  - intros Hshort. apply build_description_chosen; [assumption..|].
    unfold py_or. rewrite Hexplanation.
    destruct Hshort as [-> | ->]; reflexivity.
Qed.

Lemma description_prefers_nonempty_short_witness :
  build_description short_event
    = Returns (lit "Hi\; all\n\nshort\, text\n\nCharacters: Koishi\, Satori")
  /\ build_description miyako = Returns (lit "M\n\nE").
Proof.
  pose proof (description_prefers_nonempty_short short_event
                (lit " Hi; all ") (lit "long, long text")
                [lit "Koishi"; lit "Satori"] eq_refl eq_refl eq_refl)
    as (Hshort & _).
  pose proof (description_prefers_nonempty_short miyako
                (lit "M") (lit "E") [] eq_refl eq_refl eq_refl)
    as (_ & Hlong).
  split.
  - rewrite (Hshort (lit " short, text ")); [|reflexivity|discriminate].
    vm_compute. reflexivity.
  - rewrite Hlong; [|now left]. vm_compute. reflexivity.
Defined.

(** With an empty [explanation_short] the record has the field, yet the
    description is made from [explanation]: "M" and "E", not "M" and
    nothing. *)
Lemma empty_short_is_not_used :
  explanation_short empty_short_event = VStr []
  /\ build_description empty_short_event = Returns (lit "M\n\nE")
  /\ build_description empty_short_event
     <> Returns (description_with (lit "M") [] []).
Proof.
  split; [reflexivity|]. split; [vm_compute; reflexivity|].
  vm_compute. discriminate.
Qed.

(** ** Order of strings and keys *)

Lemma str_lt_lex (x y : str) : str_lt x y = true <-> lex_lt x y.
Proof.
  revert y. induction x as [|a x IH]; intros [|b y]; cbn [str_lt].
  - split; [discriminate|inversion 1].
  - split; [constructor|reflexivity].
  - split; [discriminate|inversion 1].
  - rewrite orb_true_iff, andb_true_iff, Z.ltb_lt, Z.eqb_eq, IH. split.
    + intros [Hlt|[-> Hlex]]; [now apply lex_lt_head|now apply lex_lt_tail].
    + inversion 1; subst; [now left|now right].
Qed.

Lemma lex_lt_irrefl (x : str) : ~ lex_lt x x.
Proof. induction x as [|a x IH]; inversion 1; subst; [lia|auto]. Qed.

Lemma lex_lt_trans (x y z : str) : lex_lt x y -> lex_lt y z -> lex_lt x z.
Proof.
  intros Hxy. revert z. induction Hxy as [b y|a b x y Hab|a x y Hxy IH];
    intros z Hyz; inversion Hyz; subst.
  - constructor.
  - constructor.
  - apply lex_lt_head. lia.
  - now apply lex_lt_head.
  - now apply lex_lt_head.
  - apply lex_lt_tail. now apply IH.
Qed.

Lemma lex_lt_total (x y : str) : lex_lt x y \/ x = y \/ lex_lt y x.
Proof.
  revert y. induction x as [|a x IH]; intros [|b y].
  - now right; left.
  - left. constructor.
  - right; right. constructor.
  - destruct (Z.lt_trichotomy a b) as [Hlt|[->|Hgt]].
    + left. now apply lex_lt_head.
    + destruct (IH y) as [H|[->|H]].
      * left. now apply lex_lt_tail.
      * now right; left.
      * right; right. now apply lex_lt_tail.
    + right; right. now apply lex_lt_head.
Qed.

Lemma key3_lt_irrefl (a : Z * Z * str) : ~ key3_lt a a.
Proof.
  destruct a as [[m d] n]. cbn. intros [H|[_ [H|[_ H]]]]; try lia.
  now apply lex_lt_irrefl in H.
Qed.

Lemma key3_lt_trans (a b c : Z * Z * str) :
  key3_lt a b -> key3_lt b c -> key3_lt a c.
Proof.
  destruct a as [[m1 d1] n1], b as [[m2 d2] n2], c as [[m3 d3] n3]. cbn.
  intros [H1|[-> [H1|[-> H1]]]] [H2|[-> [H2|[-> H2]]]];
    try (left; lia); try (right; split; [reflexivity|left; lia]).
  right. split; [reflexivity|]. right. split; [reflexivity|].
  now apply lex_lt_trans with n2.
Qed.

Lemma key3_lt_total (a b : Z * Z * str) : key3_lt a b \/ a = b \/ key3_lt b a.
Proof.
  destruct a as [[m1 d1] n1], b as [[m2 d2] n2]. cbn.
  destruct (Z.lt_trichotomy m1 m2) as [?|[->|?]];
    [left; now left| |right; right; now left].
  destruct (Z.lt_trichotomy d1 d2) as [?|[->|?]];
    [left; right; split; [reflexivity|now left]
    | |right; right; right; split; [reflexivity|now left]].
  destruct (lex_lt_total n1 n2) as [?|[->|?]].
  - left. right. split; [reflexivity|]. right. now split.
  - right. now left.
  - right; right. right. split; [reflexivity|]. right. now split.
Qed.

Lemma key3_le_trans (a b c : Z * Z * str) :
  key3_le a b -> key3_le b c -> key3_le a c.
Proof.
  intros [Hab| ->] [Hbc| ->]; [left; now apply key3_lt_trans with b|now left..|now right].
Qed.

(** On typed events the comparison of the source decides [key3_lt]. *)
Lemma key_lt_typed (a b : CalendarEvent) (ka kb : Z * Z * str) :
  typed_key a = Some ka -> typed_key b = Some kb ->
  exists r, key_lt a b = Returns r /\ (r = true <-> key3_lt ka kb).
Proof.
  unfold typed_key, key_lt, sort_key.
  destruct (month a) as [| |m1| | | |]; try discriminate.
  destruct (day a) as [| |d1| | | |]; try discriminate.
  destruct (name a) as [| | |n1| | |]; try discriminate.
  destruct (month b) as [| |m2| | | |]; try discriminate.
  destruct (day b) as [| |d2| | | |]; try discriminate.
  destruct (name b) as [| | |n2| | |]; try discriminate.
  intros [= <-] [= <-]. cbn [tuple_lt py_eq py_lt bind key3_lt].
  destruct (Z.eqb_spec m1 m2) as [->|Hm].
  - destruct (Z.eqb_spec d1 d2) as [->|Hd].
    + case_bool_decide as Hn.
      * subst n2. exists false. split; [reflexivity|].
        split; [discriminate|]. intros [?|[_ [?|[_ H]]]]; try lia.
        now apply lex_lt_irrefl in H.
      * exists (str_lt n1 n2). split; [reflexivity|]. rewrite str_lt_lex.
        split; [intros H; right; split; [reflexivity|]; right; now split|].
        intros [?|[_ [?|[_ H]]]]; [lia..|exact H].
    + exists (d1 <? d2). split; [reflexivity|]. rewrite Z.ltb_lt.
      split; [intros H; right; split; [reflexivity|now left]|].
      intros [?|[_ [?|[? _]]]]; lia.
  - exists (m1 <? m2). split; [reflexivity|]. rewrite Z.ltb_lt.
    split; [now left|]. intros [?|[? _]]; lia.
Qed.

Lemma lt_true_typed (a b : CalendarEvent) (ka kb : Z * Z * str) :
  typed_key a = Some ka -> typed_key b = Some kb ->
  lt_true (key_lt a b) = true <-> key3_lt ka kb.
Proof.
  intros Ha Hb. destruct (key_lt_typed a b ka kb Ha Hb) as (r & -> & Hr).
  destruct r; cbn [lt_true].
  - split; [intros _; now apply Hr|reflexivity].
  - split; [discriminate|intros H; apply Hr in H; discriminate].
Qed.

(** ** The sort *)

Lemma insert_event_perm (x : CalendarEvent) (l : list CalendarEvent) :
  Permutation (x :: l) (insert_event x l).
Proof.
  induction l as [|y l IH]; cbn [insert_event]; [reflexivity|].
  destruct (lt_true (key_lt y x)); [|reflexivity].
  rewrite perm_swap. now apply perm_skip.
Qed.

Lemma insertion_sort_perm (l : list CalendarEvent) :
  Permutation l (insertion_sort l).
Proof.
  induction l as [|x l IH]; cbn [insertion_sort]; [reflexivity|].
  rewrite <- insert_event_perm. now apply perm_skip.
Qed.

Lemma event_le_of_lt (a b : CalendarEvent) :
  typed a -> typed b -> lt_true (key_lt a b) = true -> event_le a b.
Proof.
  intros [ka Ha] [kb Hb] H. exists ka, kb. repeat split; try assumption.
  left. now apply (lt_true_typed a b ka kb Ha Hb).
Qed.

Lemma event_le_of_not_lt (a b : CalendarEvent) :
  typed a -> typed b -> lt_true (key_lt b a) = false -> event_le a b.
Proof.
  intros [ka Ha] [kb Hb] H. exists ka, kb. repeat split; try assumption.
  destruct (key3_lt_total ka kb) as [Hlt|[->|Hgt]]; [now left|now right|].
  apply (lt_true_typed b a kb ka Hb Ha) in Hgt. congruence.
Qed.

Lemma event_le_trans (a b c : CalendarEvent) :
  event_le a b -> event_le b c -> event_le a c.
Proof.
  intros (ka & kb & Ha & Hb & Hab) (kb' & kc & Hb' & Hc & Hbc).
  assert (kb' = kb) as -> by congruence.
  exists ka, kc. repeat split; try assumption.
  now apply key3_le_trans with kb.
Qed.

Lemma insert_event_sorted (x : CalendarEvent) (l : list CalendarEvent) :
  typed x -> Forall typed l -> StronglySorted event_le l ->
  StronglySorted event_le (insert_event x l).
Proof.
  intros Hx Hl Hsorted.
  induction Hsorted as [|y l Hsorted IH Hy]; cbn [insert_event].
  - repeat constructor.
  - apply Forall_cons in Hl as [Hty Hl].
    destruct (lt_true (key_lt y x)) eqn:Hlt.
    + constructor; [now apply IH|].
      eapply Permutation_Forall; [apply insert_event_perm|].
      constructor; [now apply event_le_of_lt|exact Hy].
    + assert (Hxy : event_le x y) by now apply event_le_of_not_lt.
      constructor; [now constructor|].
      constructor; [exact Hxy|].
      eapply Forall_impl; [exact Hy|].
      intros z Hyz. now apply event_le_trans with y.
Qed.

Lemma insertion_sort_sorted (l : list CalendarEvent) :
  Forall typed l -> StronglySorted event_le (insertion_sort l).
Proof.
  induction 1 as [|x l Hx Hl IH]; cbn [insertion_sort]; [constructor|].
  apply insert_event_sorted; [exact Hx| |exact IH].
  eapply Permutation_Forall; [apply insertion_sort_perm|exact Hl].
Qed.

Lemma insert_event_with_key (k : Z * Z * str) (x : CalendarEvent)
  (l : list CalendarEvent) :
  typed x -> Forall typed l ->
  with_key k (insert_event x l) = with_key k (x :: l).
Proof.
  intros [kx Hx] Hl. unfold with_key.
  induction Hl as [|y l [ky Hy] Hl IH]; cbn [insert_event]; [reflexivity|].
  destruct (lt_true (key_lt y x)) eqn:Hlt; [|reflexivity].
  apply (lt_true_typed y x ky kx Hy Hx) in Hlt.
  rewrite (filter_cons _ y), IH, !filter_cons.
  repeat case_decide; try reflexivity.
  assert (ky = kx) as -> by congruence. now apply key3_lt_irrefl in Hlt.
Qed.

Lemma insertion_sort_with_key (k : Z * Z * str) (l : list CalendarEvent) :
  Forall typed l -> with_key k (insertion_sort l) = with_key k l.
Proof.
  induction 1 as [|x l Hx Hl IH]; cbn [insertion_sort]; [reflexivity|].
  rewrite insert_event_with_key; [|exact Hx|].
  - unfold with_key in *. now rewrite !filter_cons, IH.
  - eapply Permutation_Forall; [apply insertion_sort_perm|exact Hl].
Qed.

Lemma insertion_sort_stable (l : list CalendarEvent) :
  Forall typed l -> stable_sort_of l (insertion_sort l).
Proof.
  intros Hl. split; [apply insertion_sort_perm|].
  split; [now apply insertion_sort_sorted|].
  intros k. now apply insertion_sort_with_key.
Qed.

Lemma all_comparisons_typed (l : list CalendarEvent) :
  Forall typed l ->
  Forall (fun r => exists b : bool, r = Returns b) (all_comparisons l).
Proof.
  intros Hl. rewrite Forall_forall in Hl. apply Forall_forall. intros r Hr.
  unfold all_comparisons in Hr.
  apply list_elem_of_bind in Hr as (x & Hr & Hx).
  apply list_elem_of_bind in Hr as (y & Hr & Hy).
  apply list_elem_of_singleton in Hr as ->.
  destruct (Hl x Hx) as [kx Hkx]. destruct (Hl y Hy) as [ky Hky].
  destruct (key_lt_typed x y kx ky Hkx Hky) as (b & -> & _). now exists b.
Qed.

Lemma existsb_none {A} (p : A -> bool) (l : list A) :
  Forall (fun x => p x = false) l -> existsb p l = false.
Proof. induction 1 as [|x l Hx _ IH]; cbn; [reflexivity|]. now rewrite Hx. Qed.

Lemma sort_events_typed (l : list CalendarEvent) :
  Forall typed l -> sort_events l = Returns (insertion_sort l).
Proof.
  intros Hl. apply all_comparisons_typed in Hl. unfold sort_events.
  rewrite !existsb_none; [reflexivity|..];
    (eapply Forall_impl; [exact Hl|]); now intros r [b ->].
Qed.

(** C5.  When the blocks read have integer months and days and text
    names, [load_events] returns their stable sort by (month, day, name):
    the same events, in ascending order of the key, those with the same
    key in the order read.  The events (3,1,B), (1,5,A), (1,5,Z) come out
    as (1,5,A), (1,5,Z), (3,1,B). *)
Theorem load_events_stable_sort (w : world) (events : list CalendarEvent)
  (Hcollect : collect_events w = Returns events)
  (Htyped : Forall typed events) :
  (exists out, load_events w = Returns out /\ stable_sort_of events out)
  /\ sort_events sample_events = Returns sample_sorted.
Proof.
  split; [|vm_compute; reflexivity].
  exists (insertion_sort events). split.
  - unfold load_events. rewrite Hcollect. cbn [bind].
    now apply sort_events_typed.
  - now apply insertion_sort_stable.
Qed.

Lemma load_events_stable_sort_witness :
  collect_events sample_world = Returns sample_events
  /\ load_events sample_world = Returns sample_sorted
  /\ stable_sort_of sample_events sample_sorted.
Proof.
  assert (Hcollect : collect_events sample_world = Returns sample_events)
    by (vm_compute; reflexivity).
  assert (Htyped : Forall typed sample_events)
    by (repeat constructor; eexists; reflexivity).
  destruct (load_events_stable_sort sample_world sample_events Hcollect Htyped)
    as ((out & Hload & Hstable) & _).
  assert (Hout : load_events sample_world = Returns sample_sorted)
    by (vm_compute; reflexivity).
  rewrite Hout in Hload. injection Hload as <-.
  split; [exact Hcollect|]. split; [exact Hout|exact Hstable].
Defined.

(** ** UTF-8 *)

Lemma is_cont_range (b : Z) :
  0 <= b < 256 -> is_cont b = (128 <=? b) && (b <? 192).
Proof.
  intros Hb.
  assert (Hall : forallb (fun b => Bool.eqb (is_cont b) ((128 <=? b) && (b <? 192)))
                   (seqZ 0 256) = true) by (vm_compute; reflexivity).
  rewrite forallb_forall in Hall. apply eqb_prop, Hall.
  apply list_elem_of_In, elem_of_seqZ. lia.
Qed.

Lemma is_cont_true (b : Z) : 128 <= b < 192 -> is_cont b = true.
Proof.
  intros Hb. rewrite is_cont_range by lia.
  apply andb_true_iff. split; [apply Z.leb_le|apply Z.ltb_lt]; lia.
Qed.

Lemma is_cont_false (b : Z) : 0 <= b < 128 \/ 192 <= b < 256 -> is_cont b = false.
Proof.
  intros Hb. rewrite is_cont_range by lia.
  apply andb_false_iff. destruct Hb; [left; apply Z.leb_gt|right; apply Z.ltb_ge]; lia.
Qed.

Lemma scalar_range (c : Z) :
  scalar c = true <-> 0 <= c <= 0x10FFFF /\ ~ (0xD800 <= c <= 0xDFFF).
Proof.
  unfold scalar, is_surrogate.
  rewrite !andb_true_iff, negb_true_iff, andb_false_iff, !Z.leb_le, !Z.leb_gt.
  lia.
Qed.

(** Comparisons in the goal that arithmetic settles. *)
Ltac settle_cmp :=
  repeat match goal with
    | |- context [?a <=? ?b] =>
        first [ replace (a <=? b) with true
                  by (symmetry; apply Z.leb_le; Z.div_mod_to_equations; lia)
              | replace (a <=? b) with false
                  by (symmetry; apply Z.leb_gt; Z.div_mod_to_equations; lia) ]
    | |- context [?a <? ?b] =>
        first [ replace (a <? b) with true
                  by (symmetry; apply Z.ltb_lt; Z.div_mod_to_equations; lia)
              | replace (a <? b) with false
                  by (symmetry; apply Z.ltb_ge; Z.div_mod_to_equations; lia) ]
    | |- context [is_cont ?b] =>
        first [ rewrite (is_cont_true b) by (Z.div_mod_to_equations; lia)
              | rewrite (is_cont_false b) by (Z.div_mod_to_equations; lia) ]
    end.

Lemma div_4096 (c : Z) : c / 4096 = c / 64 / 64.
Proof. now rewrite Z.div_div by lia. Qed.

Lemma div_262144 (c : Z) : c / 262144 = c / 64 / 64 / 64.
Proof. now rewrite !Z.div_div by lia. Qed.

(** The bytes of one code point: a byte that is not a continuation byte,
    then at most three that are. *)
Lemma encode_cp_shape (c : Z) :
  scalar c = true ->
  exists b0 rest,
    encode_cp c = b0 :: rest /\ is_cont b0 = false
    /\ Forall (fun b => is_cont b = true) rest /\ (length rest <= 3)%nat.
Proof.
  intros Hc. apply scalar_range in Hc. unfold encode_cp.
  rewrite div_4096, div_262144.
  destruct (Z.ltb_spec c 0x80); [|destruct (Z.ltb_spec c 0x800);
    [|destruct (Z.ltb_spec c 0x10000)]];
    eexists; eexists; (split; [reflexivity|]);
    (split; [apply is_cont_false; Z.div_mod_to_equations; lia|]);
    (split; [|cbn; lia]);
    repeat (constructor; [apply is_cont_true; Z.div_mod_to_equations; lia|]);
    constructor.
Qed.

(** Decoding reads back one encoded code point. *)
Lemma decode_encode_cp (c : Z) (bs : bytes) :
  scalar c = true ->
  utf8_decode (encode_cp c ++ bs)
  = let! s := utf8_decode bs in Returns (c :: s).
Proof.
  intros Hc. apply scalar_range in Hc. unfold encode_cp.
  rewrite div_4096, div_262144.
  destruct (Z.ltb_spec c 0x80); [|destruct (Z.ltb_spec c 0x800);
    [|destruct (Z.ltb_spec c 0x10000)]];
    cbn [app utf8_decode]; unfold is_surrogate, cont_bits; settle_cmp;
    cbn [andb negb].
  - reflexivity.
  - replace ((192 + c / 64 - 192) * 64 + (128 + c mod 64 - 128)) with c
      by (Z.div_mod_to_equations; lia).
    reflexivity.
  - replace ((224 + c / 64 / 64 - 224) * 4096 + (128 + (c / 64) mod 64 - 128) * 64
             + (128 + c mod 64 - 128)) with c
      by (Z.div_mod_to_equations; lia).
    replace ((55296 <=? c) && (c <=? 57343)) with false
      by (symmetry; rewrite andb_false_iff, Z.leb_gt, Z.leb_gt; lia).
    settle_cmp. reflexivity.
  - replace ((240 + c / 64 / 64 / 64 - 240) * 262144
             + (128 + (c / 64 / 64) mod 64 - 128) * 4096
             + (128 + (c / 64) mod 64 - 128) * 64 + (128 + c mod 64 - 128))
      with c by (Z.div_mod_to_equations; lia).
    settle_cmp. reflexivity.
Qed.

Lemma utf8_encode_cons (c : Z) (s : str) (bs : bytes) :
  utf8_encode (c :: s) = Returns bs ->
  scalar c = true
  /\ exists bs', utf8_encode s = Returns bs' /\ bs = encode_cp c ++ bs'.
Proof.
  cbn [utf8_encode]. destruct (scalar c); [|discriminate].
  destruct (utf8_encode s) as [bs'| | |]; cbn [bind]; try discriminate.
  intros [= <-]. eauto.
Qed.

Lemma utf8_encode_cons_Returns (c : Z) (s : str) (bs : bytes) :
  scalar c = true -> utf8_encode s = Returns bs ->
  utf8_encode (c :: s) = Returns (encode_cp c ++ bs).
Proof. intros Hc Hs. cbn [utf8_encode]. now rewrite Hc, Hs. Qed.

(** Encoding ends with the bytes or with [UnicodeEncodeError]. *)
Lemma utf8_encode_cases (s : str) :
  (exists bs, utf8_encode s = Returns bs)
  \/ utf8_encode s = Raises UnicodeEncodeError.
Proof.
  induction s as [|c s IH]; [left; now exists []|]. cbn [utf8_encode].
  destruct (scalar c); [|now right].
  destruct IH as [[bs ->]| ->]; [left; now eexists|now right].
Qed.

(** Decoding undoes encoding. *)
Lemma utf8_decode_encode (s : str) (bs : bytes) :
  utf8_encode s = Returns bs -> utf8_decode bs = Returns s.
Proof.
  revert bs. induction s as [|c s IH]; intros bs H.
  - injection H as <-. reflexivity.
  - apply utf8_encode_cons in H as (Hc & bs' & Hs & ->).
    rewrite (decode_encode_cp c bs' Hc), (IH bs' Hs). reflexivity.
Qed.

(** The first byte of an encoding is never a continuation byte. *)
Lemma utf8_encode_first_byte (s : str) (bs : bytes) :
  utf8_encode s = Returns bs ->
  forall b rest, bs = b :: rest -> is_cont b = false.
Proof.
  destruct s as [|c s]; intros H b rest Hbs.
  - injection H as <-. discriminate.
  - apply utf8_encode_cons in H as (Hc & bs' & _ & ->).
    destruct (encode_cp_shape c Hc) as (b0 & r & Hshape & Hb0 & _).
    rewrite Hshape in Hbs. now injection Hbs as <- _.
Qed.

(** A byte that is not a continuation byte starts a code point: the
    bytes before it and the bytes from it on encode the two halves of the
    string. *)
Lemma utf8_boundary (s : str) (bs : bytes) (p : nat) :
  utf8_encode s = Returns bs ->
  (p < length bs)%nat -> is_cont (nth p bs 0) = false ->
  exists s1 s2,
    s = s1 ++ s2 /\ utf8_encode s1 = Returns (take p bs)
    /\ utf8_encode s2 = Returns (drop p bs).
Proof.
  revert bs p. induction s as [|c s IH]; intros bs p H Hp Hlead.
  - injection H as <-. cbn in Hp. lia.
  - pose proof H as Hfull.
    apply utf8_encode_cons in H as (Hc & bs' & Hs & ->).
    destruct (encode_cp_shape c Hc) as (b0 & r & Hshape & Hb0 & Hr & Hlen).
    destruct (Nat.eq_dec p 0%nat) as [->|Hp0].
    { exists [], (c :: s). now rewrite take_0, drop_0. }
    destruct (Nat.lt_ge_cases p (length (encode_cp c))) as [Hin|Hout].
    + exfalso. rewrite app_nth1 in Hlead by exact Hin.
      rewrite Hshape in Hlead, Hin. cbn [length] in Hin.
      destruct p as [|p]; [lia|]. cbn [nth] in Hlead.
      rewrite Forall_forall in Hr.
      rewrite (Hr (nth p r 0)) in Hlead; [discriminate|].
      apply list_elem_of_In, nth_In. lia.
    + rewrite app_nth2 in Hlead by lia. rewrite length_app in Hp.
      destruct (IH bs' (p - length (encode_cp c))%nat Hs) as (s1 & s2 & -> & H1 & H2);
        [lia|exact Hlead|].
      exists (c :: s1), s2. split; [reflexivity|].
      rewrite take_app_ge, drop_app_ge by lia. split; [|exact H2].
      now apply utf8_encode_cons_Returns.
Qed.

(** Of four bytes in a row at least one is not a continuation byte. *)
Lemma utf8_lead_within_four (s : str) (bs : bytes) (i : nat) :
  utf8_encode s = Returns bs -> (i + 3 < length bs)%nat ->
  exists j, (i <= j <= i + 3)%nat /\ is_cont (nth j bs 0) = false.
Proof.
  revert bs i. induction s as [|c s IH]; intros bs i H Hi.
  - injection H as <-. cbn in Hi. lia.
  - apply utf8_encode_cons in H as (Hc & bs' & Hs & ->).
    destruct (encode_cp_shape c Hc) as (b0 & r & Hshape & Hb0 & Hr & Hlen).
    rewrite length_app in Hi.
    assert (Hk : (length (encode_cp c) = S (length r))%nat) by now rewrite Hshape.
    destruct (Nat.eq_dec i 0%nat) as [->|Hi0].
    { exists 0%nat. split; [lia|]. now rewrite Hshape. }
    destruct (Nat.lt_ge_cases i (length (encode_cp c))) as [Hin|Hout].
    + exists (length (encode_cp c)). split; [lia|].
      rewrite app_nth2, Nat.sub_diag by lia.
      destruct bs' as [|b bs'']; [cbn [length] in Hi; lia|]. cbn [nth].
      now apply (utf8_encode_first_byte s (b :: bs'') Hs b bs'').
    + destruct (IH bs' (i - length (encode_cp c))%nat Hs) as (j & Hj & Hlead); [lia|].
      exists (j + length (encode_cp c))%nat. split; [lia|].
      rewrite app_nth2 by lia.
      now replace (j + length (encode_cp c) - length (encode_cp c))%nat with j by lia.
Qed.

(** ** The split point *)

Lemma find_split_spec (bs : bytes) (n : nat) :
  (find_split bs n <= n)%nat
  /\ (find_split bs n = 0%nat \/ is_cont (nth (find_split bs n) bs 0) = false)
  /\ forall j, (find_split bs n < j <= n)%nat -> is_cont (nth j bs 0) = true.
Proof.
  induction n as [|n (IHle & IHstop & IHabove)]; cbn [find_split].
  - split; [lia|]. split; [now left|]. intros j Hj. lia.
  - destruct (is_cont (nth (S n) bs 0)) eqn:Hn.
    + split; [lia|]. split; [exact IHstop|]. intros j Hj.
      destruct (Nat.eq_dec j (S n)) as [->|Hne]; [exact Hn|]. apply IHabove. lia.
    + split; [lia|]. split; [now right|]. intros j Hj. lia.
Qed.

(** On an encoding of more than 75 bytes the split point is one of byte
    72 to 75, and it starts a code point. *)
Lemma find_split_encoded (s : str) (bs : bytes) :
  utf8_encode s = Returns bs -> (75 < length bs)%nat ->
  (72 <= find_split bs 75 <= 75)%nat
  /\ exists s1 s2,
       s = s1 ++ s2
       /\ utf8_encode s1 = Returns (take (find_split bs 75) bs)
       /\ utf8_encode s2 = Returns (drop (find_split bs 75) bs).
Proof.
  intros H Hlong.
  destruct (find_split_spec bs 75) as (Hle & Hstop & Habove).
  destruct (utf8_lead_within_four s bs 72 H) as (j & Hj & Hlead); [lia|].
  assert (Hge : (j <= find_split bs 75)%nat).
  { destruct (Nat.le_gt_cases j (find_split bs 75)) as [?|Hgt]; [assumption|].
    rewrite Habove in Hlead by lia. discriminate. }
  split; [lia|]. destruct Hstop as [Hzero|Hstop]; [lia|].
  apply (utf8_boundary s bs _ H); [lia|exact Hstop].
Qed.

(** ** The folding loop *)

Lemma fold_loop_eq (fuel : nat) (encoded : bytes) (result : list str) :
  fold_loop fuel encoded result
  = if (length encoded <=? 75)%nat then
      let! last := utf8_decode encoded in Returns (result ++ [last])
    else
      match fuel with
      | O => OutOfFuel
      | S fuel' =>
          let! chunk := utf8_decode (take (find_split encoded 75) encoded) in
          fold_loop fuel' (drop (find_split encoded 75) encoded) (result ++ [chunk])
      end.
Proof. destruct fuel; reflexivity. Qed.

(** With as many passes allowed as there are bytes, the loop ends: it
    cuts the string into pieces of whole code points. *)
Lemma fold_loop_parts (fuel : nat) :
  forall (s : str) (bs : bytes) (result : list str),
    utf8_encode s = Returns bs -> (1 <= length bs <= fuel)%nat ->
    exists parts,
      fold_loop fuel bs result = Returns (result ++ parts)
      /\ concat parts = s
      /\ Forall fold_part parts
      /\ (1 <= length parts)%nat
      /\ ((75 < length bs)%nat -> (2 <= length parts)%nat).
Proof.
  induction fuel as [|fuel IH]; intros s bs result H Hlen; [lia|].
  rewrite fold_loop_eq.
  destruct (Nat.leb_spec (length bs) 75) as [Hshort|Hlong].
  - rewrite (utf8_decode_encode s bs H). exists [s]. cbn [bind concat length].
    rewrite app_nil_r. repeat split; try lia.
    apply Forall_singleton. exists bs. split; [exact H|lia].
  - destruct (find_split_encoded s bs H Hlong)
      as (Hp & s1 & s2 & -> & H1 & H2).
    rewrite (utf8_decode_encode s1 _ H1). cbn [bind].
    destruct (IH s2 (drop (find_split bs 75) bs) (result ++ [s1]) H2)
      as (parts & -> & Hconcat & Hparts & Hone & _).
    { rewrite length_drop. lia. }
    exists (s1 :: parts). rewrite <- app_assoc. cbn [app concat length].
    rewrite Hconcat. repeat split; try lia.
    constructor; [|exact Hparts].
    exists (take (find_split bs 75) bs). split; [exact H1|].
    rewrite length_take. lia.
Qed.

(** More passes than needed change nothing. *)
Lemma fold_loop_more_fuel (fuel fuel' : nat) (bs : bytes) (result out : list str) :
  fold_loop fuel bs result = Returns out -> (fuel <= fuel')%nat ->
  fold_loop fuel' bs result = Returns out.
Proof.
  revert fuel' bs result. induction fuel as [|fuel IH]; intros fuel' bs result;
    rewrite !fold_loop_eq; destruct (length bs <=? 75)%nat; try discriminate;
    try (intros; assumption).
  intros H Hle. destruct fuel' as [|fuel']; [lia|].
  destruct (utf8_decode (take (find_split bs 75) bs)); cbn [bind] in *;
    try discriminate.
  apply IH; [exact H|lia].
Qed.

Lemma encode_cp_length (c : Z) : (length (encode_cp c) <= 4)%nat.
Proof.
  unfold encode_cp.
  destruct (c <? 128); [|destruct (c <? 2048); [|destruct (c <? 65536)]];
    cbn [length]; lia.
Qed.

Lemma utf8_encode_length (s : str) (bs : bytes) :
  utf8_encode s = Returns bs -> (length bs <= 4 * length s)%nat.
Proof.
  revert bs. induction s as [|c s IH]; intros bs H.
  - injection H as <-. cbn [length]. lia.
  - apply utf8_encode_cons in H as (_ & bs' & Hs & ->).
    specialize (IH bs' Hs). pose proof (encode_cp_length c).
    rewrite length_app. cbn [length]. lia.
Qed.

(** [ics_fold_line_fuel] on a line that encodes, with passes enough. *)
Lemma ics_fold_line_fuel_encoded (line : str) (encoded : bytes) (fuel : nat) :
  utf8_encode line = Returns encoded -> (length encoded <= fuel)%nat ->
  ((length encoded <= 75)%nat /\ ics_fold_line_fuel fuel line = Returns line)
  \/ ((75 < length encoded)%nat
      /\ exists parts,
           fold_loop (length encoded) encoded [] = Returns parts
           /\ ics_fold_line_fuel fuel line = Returns (join fold_marker parts)
           /\ concat parts = line /\ Forall fold_part parts
           /\ (2 <= length parts)%nat).
Proof.
  intros H Hfuel. unfold ics_fold_line_fuel. rewrite H. cbn [bind].
  destruct (Nat.leb_spec (length encoded) 75) as [Hshort|Hlong]; [now left|].
  right. split; [exact Hlong|].
  destruct (fold_loop_parts (length encoded) line encoded [] H)
    as (parts & Hloop & Hconcat & Hparts & _ & Htwo); [lia|].
  exists parts. rewrite (fold_loop_more_fuel _ fuel _ _ _ Hloop Hfuel).
  cbn [bind]. repeat split; try assumption. now apply Htwo.
Qed.

Lemma ics_fold_line_encoded (line : str) (encoded : bytes) :
  utf8_encode line = Returns encoded ->
  ((length encoded <= 75)%nat /\ ics_fold_line line = Returns line)
  \/ ((75 < length encoded)%nat
      /\ exists parts,
           fold_loop (length encoded) encoded [] = Returns parts
           /\ ics_fold_line line = Returns (join fold_marker parts)
           /\ concat parts = line /\ Forall fold_part parts
           /\ (2 <= length parts)%nat).
Proof.
  intros H. apply ics_fold_line_fuel_encoded; [exact H|].
  now apply utf8_encode_length.
Qed.

Lemma ics_fold_line_unencodable (fuel : nat) (line : str) :
  utf8_encode line = Raises UnicodeEncodeError ->
  ics_fold_line_fuel fuel line = Raises UnicodeEncodeError.
Proof. unfold ics_fold_line_fuel. now intros ->. Qed.

(** Any bound from the number of bytes on gives the result of
    [ics_fold_line]. *)
Lemma fold_line_enough_fuel (line : str) (encoded : bytes) (fuel : nat) :
  utf8_encode line = Returns encoded -> (length encoded <= fuel)%nat ->
  ics_fold_line_fuel fuel line = ics_fold_line line.
Proof.
  intros H Hfuel.
  destruct (ics_fold_line_fuel_encoded line encoded fuel H Hfuel)
    as [[Hshort ->]|(Hlong & parts & Hloop & -> & _)];
    destruct (ics_fold_line_encoded line encoded H)
      as [[Hshort' ->]|(Hlong' & parts' & Hloop' & -> & _)];
    try lia; [reflexivity|].
  rewrite Hloop in Hloop'. now injection Hloop' as ->.
Qed.

(** C10.  [ics_fold_line] ends on every string, with the folded line or,
    for a string UTF-8 cannot encode, with the encoder's exception; any
    bound on the passes from the number of bytes on leaves the result
    unchanged.  The first byte of an encoding is never a continuation
    byte, and in a pass over the encoding of any text of more than 75
    bytes the split point is at least 1 (at least 72), so what remains is
    strictly shorter, and it is again the encoding of a text. *)
Theorem ics_fold_line_terminates (line : str) :
  settled (ics_fold_line line)
  /\ (forall encoded fuel,
        utf8_encode line = Returns encoded -> (length encoded <= fuel)%nat ->
        ics_fold_line_fuel fuel line = ics_fold_line line)
  /\ (forall text encoded,
        utf8_encode text = Returns encoded ->
        (forall b rest, encoded = b :: rest -> is_cont b = false)
        /\ ((75 < length encoded)%nat ->
            (1 <= find_split encoded 75)%nat
            /\ (72 <= find_split encoded 75 <= 75)%nat
            /\ (length (drop (find_split encoded 75) encoded) < length encoded)%nat
            /\ exists remaining,
                 utf8_encode remaining
                 = Returns (drop (find_split encoded 75) encoded))).
Proof.
  split; [|split].
  - destruct (utf8_encode_cases line) as [[encoded H]|H].
    + left. destruct (ics_fold_line_encoded line encoded H)
        as [[_ ->]|(_ & parts & _ & -> & _)]; eauto.
    + right. exists UnicodeEncodeError. unfold ics_fold_line.
      now apply ics_fold_line_unencodable.
  - intros encoded fuel H Hfuel. now apply fold_line_enough_fuel with encoded.
  - intros text encoded H. split; [now apply utf8_encode_first_byte with text|].
    intros Hlong.
    destruct (find_split_encoded text encoded H Hlong)
      as (Hp & s1 & s2 & _ & _ & H2).
    split; [lia|]. split; [exact Hp|]. split; [rewrite length_drop; lia|].
    now exists s2.
Qed.

Lemma ics_fold_line_terminates_witness :
  ics_fold_line_fuel 87 kana_line = ics_fold_line kana_line
  /\ (1 <= find_split kana_bytes 75)%nat.
Proof.
  destruct (ics_fold_line_terminates kana_line) as (_ & Hfuel & Hpass).
  split.
  - apply (Hfuel kana_bytes); [vm_compute; reflexivity|vm_compute; lia].
  - apply (Hpass kana_line); [vm_compute; reflexivity|vm_compute; lia].
Defined.

(** ** Unfolding *)

Lemma starts_with_app (m post : str) : starts_with m (m ++ post) = true.
Proof.
  induction m as [|a m IH]; [now destruct post|].
  cbn [starts_with app]. now rewrite Z.eqb_refl, IH.
Qed.

Lemma starts_with_prefix (m s : str) :
  starts_with m s = true -> exists post, s = m ++ post.
Proof.
  revert s. induction m as [|a m IH]; intros s H; [now exists s|].
  destruct s as [|b s]; [discriminate|]. cbn [starts_with] in H.
  apply andb_true_iff in H as [Hab Hm]. apply Z.eqb_eq in Hab as ->.
  destruct (IH s Hm) as (post & ->). now exists post.
Qed.

Lemma occurs_occursb (m s : str) : occurs m s -> occursb m s = true.
Proof.
  intros (pre & post & ->). induction pre as [|c pre IH].
  - cbn [app]. destruct (m ++ post) eqn:E; cbn [occursb];
      rewrite <- E, starts_with_app; reflexivity.
  - cbn [app occursb]. rewrite IH. apply orb_true_r.
Qed.

Lemma occurs_tail (m : str) (c : Z) (s : str) : occurs m s -> occurs m (c :: s).
Proof. intros (pre & post & ->). now exists (c :: pre), post. Qed.

(** Inside a piece that does not hold the marker no occurrence begins,
    whatever follows the piece. *)
Lemma no_marker_start (c : Z) (p rest : str) :
  ~ occurs fold_marker (c :: p) ->
  starts_with fold_marker ((c :: p) ++ fold_marker ++ rest) = false.
Proof.
  intros Hfree. destruct (starts_with _ _) eqn:H; [|reflexivity]. exfalso.
  apply starts_with_prefix in H as (post & H). unfold fold_marker, CR, LF, SP in *.
  destruct p as [|c2 [|c3 p]]; cbn [app] in H; try congruence.
  assert (c = 13 /\ c2 = 10 /\ c3 = 32) as (-> & -> & ->)
    by (repeat split; congruence).
  apply Hfree. now exists [], p.
Qed.

Lemma unfold_part (p rest : str) :
  ~ occurs fold_marker p ->
  replace_from 0 fold_marker [] (p ++ fold_marker ++ rest)
  = p ++ replace_from 0 fold_marker [] rest.
Proof.
  induction p as [|c p IH]; intros Hfree; [reflexivity|].
  change ((c :: p) ++ fold_marker ++ rest)
    with (c :: (p ++ fold_marker ++ rest)).
  cbn [replace_from].
  change (c :: (p ++ fold_marker ++ rest))
    with ((c :: p) ++ fold_marker ++ rest).
  rewrite (no_marker_start c p rest Hfree). cbn [app]. f_equal.
  apply IH. intros Hp. now apply Hfree, occurs_tail.
Qed.

Lemma unfold_free (p : str) :
  ~ occurs fold_marker p -> replace_from 0 fold_marker [] p = p.
Proof.
  induction p as [|c p IH]; intros Hfree; [reflexivity|]. cbn [replace_from].
  destruct (starts_with fold_marker (c :: p)) eqn:H.
  - exfalso. apply starts_with_prefix in H as (post & H).
    apply Hfree. now exists [], post.
  - f_equal. apply IH. intros Hp. now apply Hfree, occurs_tail.
Qed.

Lemma unfold_join (parts : list str) :
  Forall (fun p => ~ occurs fold_marker p) parts ->
  unfold_line (join fold_marker parts) = concat parts.
Proof.
  unfold unfold_line. change (replace ?s fold_marker [])
    with (replace_from 0 fold_marker [] s).
  induction 1 as [|p parts Hp Hparts IH]; [reflexivity|].
  destruct parts as [|q parts].
  - cbn [join concat]. rewrite app_nil_r. now apply unfold_free.
  - change (join fold_marker (p :: q :: parts))
      with (p ++ fold_marker ++ join fold_marker (q :: parts)).
    rewrite (unfold_part p _ Hp), IH. reflexivity.
Qed.

Lemma occurs_in_concat (m : str) (parts : list str) :
  ~ occurs m (concat parts) -> Forall (fun p => ~ occurs m p) parts.
Proof.
  induction parts as [|p parts IH]; intros Hfree; [constructor|].
  cbn [concat] in Hfree. constructor.
  - intros (pre & post & ->). apply Hfree.
    exists pre, (post ++ concat parts). now rewrite <- !app_assoc.
  - apply IH. intros (pre & post & Hc). apply Hfree.
    exists (p ++ pre), post. now rewrite Hc, <- app_assoc.
Qed.

(** C2, as the code has it.  On a string whose encoding exceeds 75 bytes
    the cut of a pass falls between two code points: the bytes before it
    and the bytes after it encode the two halves of the string.  The
    string is folded into two or more pieces, each a run of whole code
    points of 1 to 75 octets, whose concatenation is the string: no
    character is split.  When the string itself holds no [CRLF] followed
    by a space, taking the fold markers out of the result gives the string
    back. *)
Theorem fold_line_keeps_code_points (line : str) (encoded : bytes)
  (Hencoded : utf8_encode line = Returns encoded)
  (Hlong : (75 < length encoded)%nat) :
  (exists first rest,
     line = first ++ rest
     /\ utf8_encode first = Returns (take (find_split encoded 75) encoded)
     /\ utf8_encode rest = Returns (drop (find_split encoded 75) encoded))
  /\ exists parts,
       ics_fold_line line = Returns (join fold_marker parts)
       /\ concat parts = line
       /\ Forall fold_part parts
       /\ (2 <= length parts)%nat
       /\ (~ occurs fold_marker line ->
           unfold_line (join fold_marker parts) = line).
Proof.
  split; [now apply find_split_encoded|].
  destruct (ics_fold_line_encoded line encoded Hencoded)
    as [[Hshort _]|(_ & parts & _ & Hfold & Hconcat & Hparts & Htwo)]; [lia|].
  exists parts. repeat split; try assumption.
  intros Hfree. rewrite <- Hconcat in Hfree.
  rewrite (unfold_join parts (occurs_in_concat _ parts Hfree)). exact Hconcat.
Qed.

Lemma fold_line_keeps_code_points_witness :
  ics_fold_line kana_line
    = Returns (replicate 74 97 ++ fold_marker ++ [0x3042] ++ replicate 10 98)
  /\ exists parts,
       ics_fold_line kana_line = Returns (join fold_marker parts)
       /\ concat parts = kana_line
       /\ Forall fold_part parts
       /\ unfold_line (join fold_marker parts) = kana_line.
Proof.
  split; [vm_compute; reflexivity|].
  destruct (fold_line_keeps_code_points kana_line kana_bytes)
    as (_ & parts & Hfold & Hconcat & Hparts & _ & Hunfold).
  - vm_compute. reflexivity.
  - vm_compute. lia.
  - exists parts. repeat split; try assumption. apply Hunfold.
    intros Hocc. apply occurs_occursb in Hocc. vm_compute in Hocc. discriminate.
Defined.

(** A line that itself begins with [CRLF] and a space: unfolding the
    folded line takes that out as well, and does not give the line
    back. *)
Lemma unfold_loses_marker_of_line :
  octets marker_line = Returns 76%nat
  /\ ics_fold_line marker_line
     = Returns (fold_marker ++ replicate 72 97 ++ fold_marker ++ [97])
  /\ unfold_line (fold_marker ++ replicate 72 97 ++ fold_marker ++ [97])
     = replicate 73 97
  /\ unfold_line (fold_marker ++ replicate 72 97 ++ fold_marker ++ [97])
     <> marker_line.
Proof.
  split; [vm_compute; reflexivity|]. split; [vm_compute; reflexivity|].
  split; [vm_compute; reflexivity|]. vm_compute. discriminate.
Qed.

(** C7 fails on the code.  A line of 150 letters is folded into two
    physical lines; the second is the space and 75 letters, 76 octets. *)
Lemma fold_line_continuation_76_octets :
  ics_fold_line long_line
    = Returns (replicate 75 97 ++ CRLF ++ SP :: replicate 75 97)
  /\ split (replicate 75 97 ++ CRLF ++ SP :: replicate 75 97) CRLF
     = [replicate 75 97; SP :: replicate 75 97]
  /\ octets (SP :: replicate 75 97) = Returns 76%nat.
Proof.
  split; [vm_compute; reflexivity|]. split; vm_compute; reflexivity.
Qed.

(** * Further properties *)

(** ** Escaping loses nothing *)

Lemma escape_char_cases (c : Z) :
  (c = BACKSLASH /\ escape_char c = [BACKSLASH; BACKSLASH])
  \/ (c = 59 /\ escape_char c = [BACKSLASH; 59])
  \/ (c = 44 /\ escape_char c = [BACKSLASH; 44])
  \/ (c = LF /\ escape_char c = [BACKSLASH; 110])
  \/ (special c = false /\ escape_char c = [c]).
Proof.
  unfold escape_char, special, BACKSLASH, LF.
  destruct (Z.eqb_spec c 92) as [->|?]; [now left|].
  destruct (Z.eqb_spec c 59) as [->|?]; [now right; left|].
  destruct (Z.eqb_spec c 44) as [->|?]; [now right; right; left|].
  destruct (Z.eqb_spec c 10) as [->|?]; [now right; right; right; left|].
  now right; right; right; right.
Qed.

Lemma special_backslash (c : Z) : special c = false -> (c =? BACKSLASH) = false.
Proof. unfold special. now destruct (c =? BACKSLASH). Qed.

Lemma unescape_escape_char (c : Z) (t : str) :
  unescape (escape_char c ++ t) = c :: unescape t.
Proof.
  destruct (escape_char_cases c)
    as [[-> ->]|[[-> ->]|[[-> ->]|[[-> ->]|[Hc ->]]]]]; try reflexivity.
  cbn [app unescape]. now rewrite (special_backslash c Hc).
Qed.

Lemma unescape_ics_escape (text : str) : unescape (ics_escape text) = text.
Proof.
  rewrite ics_escape_flat_map. induction text as [|c text IH]; [reflexivity|].
  cbn [flat_map]. now rewrite unescape_escape_char, IH.
Qed.

Lemma well_escaped_escape_char (c : Z) (t : str) :
  well_escaped (escape_char c ++ t) = well_escaped t.
Proof.
  destruct (escape_char_cases c)
    as [[-> ->]|[[-> ->]|[[-> ->]|[[-> ->]|[Hc ->]]]]]; try reflexivity.
  cbn [app well_escaped]. now rewrite (special_backslash c Hc), Hc.
Qed.

(** X1.  Escaped text can be read back: undoing the escape pairs of
    [ics_escape text] gives [text], so two different texts never have the
    same escaped form. *)
Theorem ics_escape_injective :
  (forall text, unescape (ics_escape text) = text)
  /\ (forall a b, ics_escape a = ics_escape b -> a = b).
Proof.
  split; [exact unescape_ics_escape|].
  intros a b H. rewrite <- (unescape_ics_escape a), <- (unescape_ics_escape b).
  now rewrite H.
Qed.

(** X2.  The result of [ics_escape] is made of plain characters and
    escape pairs only: no newline, semicolon or comma stands in it
    unescaped, and every backslash begins a pair. *)
Theorem ics_escape_well_escaped (text : str) :
  well_escaped (ics_escape text) = true.
Proof.
  rewrite ics_escape_flat_map. induction text as [|c text IH]; [reflexivity|].
  cbn [flat_map]. now rewrite well_escaped_escape_char.
Qed.

Lemma escape_char_length (c : Z) :
  length (escape_char c) = (if special c then 2 else 1)%nat.
Proof.
  destruct (escape_char_cases c)
    as [[-> ->]|[[-> ->]|[[-> ->]|[[-> ->]|[Hc ->]]]]]; try reflexivity.
  now rewrite Hc.
Qed.

Lemma ics_escape_length (text : str) :
  length (ics_escape text)
  = (length text + length (List.filter special text))%nat.
Proof.
  rewrite ics_escape_flat_map. induction text as [|c text IH]; [reflexivity|].
  cbn [flat_map List.filter]. rewrite length_app, IH, escape_char_length.
  destruct (special c); cbn [length]; lia.
Qed.

Lemma ics_escape_plain (text : str) :
  Forall (fun c => special c = false) text -> ics_escape text = text.
Proof.
  rewrite ics_escape_flat_map. induction 1 as [|c text Hc _ IH]; [reflexivity|].
  cbn [flat_map]. rewrite IH.
  destruct (escape_char_cases c)
    as [[-> _]|[[-> _]|[[-> _]|[[-> _]|[_ ->]]]]]; try discriminate.
  reflexivity.
Qed.

Lemma filter_nil_Forall {A} (p : A -> bool) (l : list A) :
  List.filter p l = [] -> Forall (fun x => p x = false) l.
Proof.
  induction l as [|x l IH]; [constructor|]. cbn [List.filter].
  destruct (p x) eqn:Hx; [discriminate|]. intros H. constructor; auto.
Qed.

Lemma ics_escape_fixed_plain (text : str) :
  ics_escape text = text -> Forall (fun c => special c = false) text.
Proof.
  intros H. apply filter_nil_Forall.
  pose proof (ics_escape_length text) as Hlen. rewrite H in Hlen.
  destruct (List.filter special text); [reflexivity|cbn [length] in Hlen; lia].
Qed.

(** X3.  [ics_escape] leaves a text as it is exactly when the text has no
    backslash, semicolon, comma or newline, and only on such texts is
    escaping twice the same as escaping once. *)
Theorem ics_escape_idempotent_iff_plain (text : str) :
  (ics_escape text = text <-> Forall (fun c => special c = false) text)
  /\ (ics_escape (ics_escape text) = ics_escape text
      <-> Forall (fun c => special c = false) text).
Proof.
  split; (split; [|intros H; now rewrite !(ics_escape_plain text H)]).
  - exact (ics_escape_fixed_plain text).
  - intros H. apply ics_escape_fixed_plain.
    rewrite <- (unescape_ics_escape (ics_escape text)), H.
    apply unescape_ics_escape.
Qed.

(** X4.  Escaping goes through concatenation, and it at most doubles the
    length: a text of n characters has between n and 2n characters once
    escaped, one more for each character rewritten. *)
Theorem ics_escape_app_length (a b : str) :
  ics_escape (a ++ b) = ics_escape a ++ ics_escape b
  /\ length (ics_escape a)
     = (length a + length (List.filter special a))%nat
  /\ (length a <= length (ics_escape a) <= 2 * length a)%nat.
Proof.
  split; [now rewrite !ics_escape_flat_map, flat_map_app|].
  split; [apply ics_escape_length|].
  rewrite ics_escape_length.
  assert (length (List.filter special a) <= length a)%nat; [|lia].
  clear. induction a as [|c a IH]; cbn [List.filter length]; [lia|].
  destruct (special c); cbn [length]; lia.
Qed.

(** ** Sizes of the folded pieces *)

Lemma fold_loop_sizes (fuel : nat) :
  forall (s : str) (bs : bytes) (result : list str),
    utf8_encode s = Returns bs -> (1 <= length bs <= fuel)%nat ->
    exists init last,
      fold_loop fuel bs result = Returns (result ++ init ++ [last])
      /\ concat (init ++ [last]) = s
      /\ Forall (octets_between 72 75) init
      /\ octets_between 1 75 last
      /\ ((75 < length bs)%nat -> init <> []).
Proof.
  induction fuel as [|fuel IH]; intros s bs result H Hlen; [lia|].
  rewrite fold_loop_eq.
  destruct (Nat.leb_spec (length bs) 75) as [Hshort|Hlong].
  - rewrite (utf8_decode_encode s bs H). exists [], s. cbn [bind concat app].
    rewrite app_nil_r. repeat split; try (constructor || lia).
    exists bs. split; [exact H|lia].
  - destruct (find_split_encoded s bs H Hlong)
      as (Hp & s1 & s2 & -> & H1 & H2).
    rewrite (utf8_decode_encode s1 _ H1). cbn [bind].
    destruct (IH s2 (drop (find_split bs 75) bs) (result ++ [s1]) H2)
      as (init & last & -> & Hconcat & Hinit & Hlast & _).
    { rewrite length_drop. lia. }
    exists (s1 :: init), last. rewrite <- app_assoc. cbn [app concat].
    rewrite Hconcat. repeat split; try assumption; try discriminate.
    constructor; [|exact Hinit].
    exists (take (find_split bs 75) bs). split; [exact H1|].
    rewrite length_take. lia.
Qed.

Lemma octets_between_space (lo hi : nat) (p : str) :
  octets_between lo hi p -> octets_between (S lo) (S hi) (SP :: p).
Proof.
  intros (c & Hc & Hlen). exists (SP :: c). split.
  - now apply (utf8_encode_cons_Returns SP p c).
  - cbn [length]. lia.
Qed.

(** X5.  A line of more than 75 octets is folded into pieces that are
    whole code points: every piece but the last has 72 to 75 octets and
    the last has 1 to 75, so each continuation line, a space and a piece,
    has at most 76 octets. *)
Theorem fold_line_piece_sizes (line : str) (encoded : bytes)
  (Hencoded : utf8_encode line = Returns encoded)
  (Hlong : (75 < length encoded)%nat) :
  exists init last,
    ics_fold_line line = Returns (join fold_marker (init ++ [last]))
    /\ concat (init ++ [last]) = line
    /\ init <> []
    /\ Forall (octets_between 72 75) init
    /\ octets_between 1 75 last
    /\ Forall (fun p => octets_between 2 76 (SP :: p)) (tail (init ++ [last])).
Proof.
  destruct (fold_loop_sizes (4 * length line) line encoded [] Hencoded)
    as (init & last & Hloop & Hconcat & Hinit & Hlast & Hne).
  { pose proof (utf8_encode_length line encoded Hencoded). lia. }
  exists init, last. unfold ics_fold_line, ics_fold_line_fuel.
  rewrite Hencoded. cbn [bind].
  destruct (Nat.leb_spec (length encoded) 75); [lia|].
  rewrite Hloop. cbn [bind app].
  repeat split; try assumption; [now apply Hne|].
  assert (Hall : Forall (octets_between 1 75) (init ++ [last])).
  { apply Forall_app. split; [|now apply Forall_singleton].
    eapply Forall_impl; [exact Hinit|].
    intros p (c & Hc & Hlen). exists c. split; [exact Hc|lia]. }
  destruct (init ++ [last]) as [|p ps]; [constructor|]. cbn [tail].
  apply Forall_cons in Hall as [_ Hall].
  eapply Forall_impl; [exact Hall|]. intros q Hq.
  now apply (octets_between_space 1 75).
Qed.

Lemma fold_line_piece_sizes_witness :
  exists init last,
    ics_fold_line emoji_line = Returns (join fold_marker (init ++ [last]))
    /\ concat (init ++ [last]) = emoji_line
    /\ init <> []
    /\ Forall (octets_between 72 75) init
    /\ octets_between 1 75 last
    /\ Forall (fun p => octets_between 2 76 (SP :: p)) (tail (init ++ [last])).
Proof.
  apply (fold_line_piece_sizes emoji_line emoji_bytes).
  - vm_compute. reflexivity.
  - vm_compute. lia.
Defined.

(** ** When folding raises *)

Lemma utf8_encode_encodable (s : str) :
  encodable s -> exists bs, utf8_encode s = Returns bs.
Proof.
  induction 1 as [|c s Hc _ (bs & IH)]; [now exists []|].
  exists (encode_cp c ++ bs). now apply utf8_encode_cons_Returns.
Qed.

Lemma utf8_encode_Returns_encodable (s : str) (bs : bytes) :
  utf8_encode s = Returns bs -> encodable s.
Proof.
  revert bs. induction s as [|c s IH]; intros bs H; [constructor|].
  apply utf8_encode_cons in H as (Hc & bs' & Hs & _).
  constructor; [exact Hc|now apply (IH bs')].
Qed.

(** X6.  [ics_fold_line] returns exactly on the strings that UTF-8 can
    encode, those without a surrogate code point, and raises
    [UnicodeEncodeError] on every other; a string of at most 75 octets is
    returned as it is. *)
Theorem ics_fold_line_raises_iff (line : str) :
  (encodable line <-> exists out, ics_fold_line line = Returns out)
  /\ (~ encodable line -> ics_fold_line line = Raises UnicodeEncodeError)
  /\ (forall encoded,
        utf8_encode line = Returns encoded -> (length encoded <= 75)%nat ->
        ics_fold_line line = Returns line).
Proof.
  assert (Hret : forall out, ics_fold_line line = Returns out -> encodable line).
  { intros out H. destruct (utf8_encode_cases line) as [[bs Hbs]|Hbs].
    - now apply (utf8_encode_Returns_encodable line bs).
    - unfold ics_fold_line in H.
      rewrite (ics_fold_line_unencodable _ line Hbs) in H. discriminate. }
  split; [split|split].
  - intros Henc. destruct (utf8_encode_encodable line Henc) as (bs & Hbs).
    destruct (ics_fold_line_encoded line bs Hbs)
      as [[_ ->]|(_ & parts & _ & -> & _)]; eauto.
  - intros (out & H). now apply (Hret out).
  - intros Hnot. destruct (utf8_encode_cases line) as [[bs Hbs]|Hbs].
    + destruct Hnot. now apply (utf8_encode_Returns_encodable line bs).
    + unfold ics_fold_line. now apply ics_fold_line_unencodable.
  - intros encoded Hbs Hshort.
    destruct (ics_fold_line_encoded line encoded Hbs)
      as [[_ ->]|(Hlong & _)]; [reflexivity|lia].
Qed.

(** ** What a block needs to parse *)

(** X7.  [parse_event] returns exactly on a mapping that has the five
    required keys.  On a mapping without one of them it raises [KeyError]
    with the first missing key; on anything that is not a mapping it
    raises [AttributeError]; it raises nothing else. *)
Theorem parse_event_returns_iff (doc : pyval) :
  ((exists e, parse_event doc = Returns e)
   <-> exists d, doc = VDict d /\ first_missing d = None)
  /\ (forall d k, doc = VDict d -> first_missing d = Some k ->
        parse_event doc = Raises (KeyError k))
  /\ ((forall d, doc <> VDict d) -> parse_event doc = Raises AttributeError).
Proof.
  split; [split|split].
  - intros (e & He). destruct doc; try discriminate.
    exists d. split; [reflexivity|].
    destruct (first_missing d) as [k|] eqn:Hk; [|reflexivity].
    rewrite (parse_event_missing d k Hk) in He. discriminate.
  - intros (d & -> & Hd).
    destruct (parse_event_complete d Hd) as (? & ? & ? & ? & ? & ->). eauto.
  - intros d k -> Hk. now apply parse_event_missing.
  - intros Hnot. destruct doc; try reflexivity. now destruct (Hnot d).
Qed.

(** X8.  A key that [parse_event] does not read changes nothing: adding
    it to a block, with any value, or removing it, gives the same event
    or the same exception. *)
Theorem parse_event_ignores_unknown_keys (d : gmap str pyval) (k : str)
  (v : pyval) (Hunknown : k ∉ known_keys) :
  parse_event (VDict (<[k := v]> d)) = parse_event (VDict d)
  /\ parse_event (VDict (delete k d)) = parse_event (VDict d).
Proof.
  assert (Hne : forall key, key ∈ known_keys -> k <> key).
  { intros key Hkey ->. now apply Hunknown. }
  assert (Hins : forall key, key ∈ known_keys -> <[k := v]> d !! key = d !! key).
  { intros key Hkey. apply lookup_insert_ne. now apply Hne. }
  assert (Hdel : forall key, key ∈ known_keys -> delete k d !! key = d !! key).
  { intros key Hkey. apply lookup_delete_ne. now apply Hne. }
  unfold parse_event, getitem, dict_get.
  split; [rewrite !Hins|rewrite !Hdel]; try reflexivity;
    unfold known_keys, required_fields; cbn [app]; repeat constructor.
Qed.

Lemma parse_event_ignores_unknown_keys_witness :
  parse_event (VDict extra_key_dict) = parse_event (VDict not_a_list_dict)
  /\ parse_event (VDict (delete (lit "color") not_a_list_dict))
     = parse_event (VDict not_a_list_dict).
Proof.
  apply (parse_event_ignores_unknown_keys not_a_list_dict (lit "color")
           (VStr (lit "red"))).
  intros H. apply list_elem_of_In in H. vm_compute in H. intuition discriminate.
Defined.

(** ** A missing source *)

Lemma foldM_load_month_missing (w : world) (m : Z) :
  days w !! m = None ->
  forall months, m ∈ months ->
  forall events evs, foldM (load_month w) events months <> Returns evs.
Proof.
  intros Hnone months Hm.
  induction Hm as [m months|m m' months Hm IH]; intros events evs;
    cbn [foldM]; intros H.
  - apply bind_Returns in H as (a & Ha & _). unfold load_month, open_yaml in Ha.
    rewrite Hnone in Ha. discriminate.
  - apply bind_Returns in H as (a & _ & Ha). now apply (IH Hnone a evs).
Qed.

(** X9.  When one of the twelve sources is missing the run fails while
    loading and [main] ends with the exception and the world as it was,
    nothing printed and no file written; the exception is
    [FileNotFoundError] when the sources before the missing one exist and
    their blocks load. *)
Theorem missing_source_aborts_run (w : world) (m : Z)
  (Hm : 1 <= m <= 12) (Hmissing : days w !! m = None) :
  (exists e, load_events w = Raises e /\ main w = (Raises e, w))
  /\ ((forall m', 1 <= m' < m ->
         exists docs, days w !! m' = Some docs /\ Forall loadable docs) ->
      load_events w = Raises FileNotFoundError
      /\ main w = (Raises FileNotFoundError, w)).
Proof.
  assert (Hrange : m ∈ month_range) by (apply elem_of_seqZ; lia).
  split.
  - destruct (collect_events_settled w) as [[evs Hevs]|[e He]].
    + exfalso. unfold collect_events in Hevs.
      now apply (foldM_load_month_missing w m Hmissing _ Hrange) in Hevs.
    + exists e. assert (Hload : load_events w = Raises e).
      { unfold load_events. now rewrite He. }
      split; [exact Hload|now apply main_load_fails].
  - intros Hbefore.
    assert (Hload : load_events w = Raises FileNotFoundError).
    { unfold load_events, collect_events.
      rewrite (month_range_split m Hrange), foldM_app.
      destruct (foldM_load_month_loadable w (seqZ 1 (m - 1)))
        with (events := @nil CalendarEvent) as (evs1 & ->).
      { intros m' Hm'. apply elem_of_seqZ in Hm'. apply Hbefore. lia. }
      cbn [bind foldM]. unfold load_month at 1, open_yaml.
      rewrite Hmissing. reflexivity. }
    split; [exact Hload|now apply main_load_fails].
Qed.

Lemma missing_source_aborts_run_witness :
  load_events missing_source_world = Raises FileNotFoundError
  /\ main missing_source_world = (Raises FileNotFoundError, missing_source_world).
Proof.
  destruct (missing_source_aborts_run missing_source_world 5) as (_ & Hfirst).
  - lia.
  - reflexivity.
  - apply Hfirst. intros m' Hm'.
    assert (Hcases : m' = 1 \/ m' = 2 \/ m' = 3 \/ m' = 4) by lia.
    destruct Hcases as [-> | [-> | [-> | ->]]].
    + exists []. split; [reflexivity|constructor].
    + exists [miyako_doc]. split; [reflexivity|].
      constructor; [|constructor]. right. eexists. split; reflexivity.
    + exists []. split; [reflexivity|constructor].
    + exists []. split; [reflexivity|constructor].
Defined.

(** ** What a load returns *)

Lemma mapM_app {A B} (f : A -> outcome B) (l1 l2 : list A) :
  mapM f (l1 ++ l2)
  = let! r1 := mapM f l1 in let! r2 := mapM f l2 in Returns (r1 ++ r2).
Proof.
  induction l1 as [|x l1 IH]; cbn [app mapM].
  - destruct (mapM f l2); reflexivity.
  - destruct (f x); cbn [bind]; try reflexivity. rewrite IH.
    destruct (mapM f l1); cbn [bind]; try reflexivity.
    destruct (mapM f l2); reflexivity.
Qed.

Lemma mapM_length {A B} (f : A -> outcome B) (l : list A) (r : list B) :
  mapM f l = Returns r -> length r = length l.
Proof.
  revert r. induction l as [|x l IH]; intros r H.
  - now injection H as <-.
  - apply mapM_cons_Returns in H as (y & ys & _ & Hys & ->).
    cbn [length]. now rewrite (IH ys Hys).
Qed.

(** The loop over one source parses its non-empty documents in order. *)
Lemma foldM_load_doc_mapM (docs : list pyval) :
  forall events evs,
    foldM load_doc events docs = Returns evs ->
    exists parsed,
      mapM parse_event (List.filter nonempty_doc docs) = Returns parsed
      /\ evs = events ++ parsed.
Proof.
  induction docs as [|doc docs IH]; intros events evs H.
  - injection H as <-. exists []. now rewrite app_nil_r.
  - cbn [foldM] in H. apply bind_Returns in H as (a & Ha & H).
    destruct (IH a evs H) as (parsed & Hparsed & ->).
    destruct (nonempty_doc doc) eqn:Hdoc.
    + assert (Hstep : exists e, parse_event doc = Returns e /\ a = events ++ [e]).
      { unfold load_doc in Ha. destruct doc; try discriminate;
          apply bind_Returns in Ha as (e & He & [= <-]); eauto. }
      destruct Hstep as (e & He & ->). exists (e :: parsed).
      cbn [List.filter]. rewrite Hdoc. cbn [mapM]. rewrite He, Hparsed.
      cbn [bind]. now rewrite <- app_assoc.
    + destruct doc; try discriminate. cbn [load_doc] in Ha.
      injection Ha as <-. exists parsed. cbn [List.filter nonempty_doc].
      now split.
Qed.

Lemma foldM_load_month_mapM (w : world) (months : list Z) :
  forall events evs,
    foldM (load_month w) events months = Returns evs ->
    exists parsed,
      mapM parse_event
        (List.filter nonempty_doc (flat_map (source_docs w) months))
      = Returns parsed
      /\ evs = events ++ parsed.
Proof.
  induction months as [|m months IH]; intros events evs H.
  - injection H as <-. exists []. now rewrite app_nil_r.
  - cbn [foldM] in H. apply bind_Returns in H as (a & Ha & H).
    destruct (IH a evs H) as (parsed & Hparsed & ->).
    unfold load_month, open_yaml in Ha.
    destruct (days w !! m) as [docs|] eqn:Hdocs; [|discriminate].
    cbn [bind] in Ha.
    destruct (foldM_load_doc_mapM docs events a Ha) as (parsed0 & Hparsed0 & ->).
    exists (parsed0 ++ parsed). cbn [flat_map]. unfold source_docs at 1.
    rewrite Hdocs. cbn [default]. unfold id.
    rewrite List.filter_app, mapM_app, Hparsed0, Hparsed.
    cbn [bind]. now rewrite <- app_assoc.
Qed.

Lemma sort_events_Returns (l out : list CalendarEvent) :
  sort_events l = Returns out -> out = insertion_sort l.
Proof.
  unfold sort_events.
  destruct (existsb is_unmodelled (all_comparisons l)); [discriminate|].
  destruct (existsb is_raise (all_comparisons l)); [discriminate|].
  now intros [= <-].
Qed.

(** X10.  What [load_events] returns is the events parsed from the
    non-empty documents of the twelve sources, every one of them once, in
    another order: no event is dropped, merged or added, also when two
    have the same month, day and name. *)
Theorem load_events_keeps_every_event (w : world) (out : list CalendarEvent)
  (Hload : load_events w = Returns out) :
  exists events,
    mapM parse_event (List.filter nonempty_doc (all_docs w)) = Returns events
    /\ Permutation events out
    /\ length out = length (List.filter nonempty_doc (all_docs w)).
Proof.
  unfold load_events in Hload.
  apply bind_Returns in Hload as (events & Hcollect & Hsort).
  apply foldM_load_month_mapM in Hcollect as (parsed & Hparsed & ->).
  cbn [app] in Hsort. apply sort_events_Returns in Hsort as ->.
  unfold all_docs.
  exists parsed. split; [exact Hparsed|]. split; [apply insertion_sort_perm|].
  rewrite <- (mapM_length _ _ _ Hparsed).
  symmetry. apply Permutation_length, insertion_sort_perm.
Qed.

Lemma load_events_keeps_every_event_witness :
  exists events,
    mapM parse_event (List.filter nonempty_doc (all_docs sample_world))
      = Returns events
    /\ Permutation events sample_sorted
    /\ length sample_sorted
       = length (List.filter nonempty_doc (all_docs sample_world)).
Proof.
  apply (load_events_keeps_every_event sample_world sample_sorted).
  vm_compute. reflexivity.
Defined.

(** ** What a load depends on *)

Lemma foldM_load_doc_filter (docs : list pyval) (events : list CalendarEvent) :
  foldM load_doc events docs
  = foldM load_doc events (List.filter nonempty_doc docs).
Proof.
  revert events. induction docs as [|doc docs IH]; intros events; [reflexivity|].
  cbn [List.filter]. destruct (nonempty_doc doc) eqn:Hdoc.
  - cbn [foldM]. destruct (load_doc events doc); cbn [bind]; auto.
  - destruct doc; try discriminate. cbn [foldM load_doc bind]. apply IH.
Qed.

Lemma foldM_ext_in {A B} (f g : B -> A -> outcome B) (xs : list A) :
  (forall acc x, x ∈ xs -> f acc x = g acc x) ->
  forall acc, foldM f acc xs = foldM g acc xs.
Proof.
  induction xs as [|x xs IH]; intros Hfg acc; [reflexivity|].
  cbn [foldM]. rewrite (Hfg acc x) by left.
  destruct (g acc x); cbn [bind]; try reflexivity.
  apply IH. intros acc' x' Hx'. apply Hfg. now right.
Qed.

(** X11.  [load_events] depends on the world only through the non-empty
    documents of the sources 1 to 12: empty documents, other sources, the
    output file and what was printed make no difference. *)
Theorem load_events_depends_on_documents (w1 w2 : world)
  (Hsame : forall m, 1 <= m <= 12 ->
     (List.filter nonempty_doc <$> days w1 !! m)
     = (List.filter nonempty_doc <$> days w2 !! m)) :
  load_events w1 = load_events w2.
Proof.
  unfold load_events, collect_events. f_equal.
  apply foldM_ext_in. intros events m Hm. apply elem_of_seqZ in Hm.
  specialize (Hsame m ltac:(lia)). unfold load_month, open_yaml.
  destruct (days w1 !! m) as [d1|], (days w2 !! m) as [d2|];
    cbn [fmap option_fmap option_map] in Hsame; cbn [bind];
    try discriminate; [|reflexivity].
  injection Hsame as Hsame.
  now rewrite (foldM_load_doc_filter d1), (foldM_load_doc_filter d2), Hsame.
Qed.

Lemma load_events_depends_on_documents_witness :
  load_events stray_world = load_events (one_month_world 2 [miyako_doc]).
Proof.
  apply load_events_depends_on_documents. intros m Hm.
  assert (Hcases : m = 1 \/ m = 2 \/ m = 3 \/ m = 4 \/ m = 5 \/ m = 6 \/ m = 7
                   \/ m = 8 \/ m = 9 \/ m = 10 \/ m = 11 \/ m = 12) by lia.
  repeat (destruct Hcases as [->|Hcases]; [vm_compute; reflexivity|]).
  subst m. vm_compute. reflexivity.
Defined.

(** ** The order of the input and the order of the output *)

Lemma key3_lt_asym (a b : Z * Z * str) : key3_lt a b -> key3_lt b a -> False.
Proof. intros Hab Hba. exact (key3_lt_irrefl a (key3_lt_trans a b a Hab Hba)). Qed.

Lemma event_lt_asym (a b : CalendarEvent) : event_lt a b -> event_lt b a -> False.
Proof.
  intros (ka & kb & Ha & Hb & Hab) (kb' & ka' & Hb' & Ha' & Hba).
  assert (ka' = ka) as -> by congruence. assert (kb' = kb) as -> by congruence.
  exact (key3_lt_asym ka kb Hab Hba).
Qed.

Lemma event_lt_irrefl (a : CalendarEvent) : ~ event_lt a a.
Proof. intros H. exact (event_lt_asym a a H H). Qed.

Lemma sorted_strict (l : list CalendarEvent) :
  StronglySorted event_le l -> NoDup (typed_key <$> l) ->
  StronglySorted event_lt l.
Proof.
  induction 1 as [|x l Hsorted IH Hx]; intros Hnodup; [constructor|].
  cbn [fmap list_fmap] in Hnodup. apply NoDup_cons in Hnodup as [Hfresh Hnodup].
  constructor; [now apply IH|].
  rewrite Forall_forall in Hx |- *. intros z Hz.
  destruct (Hx z Hz) as (kx & kz & Hkx & Hkz & [Hlt| ->]).
  - now exists kx, kz.
  - exfalso. apply Hfresh. rewrite Hkx, <- Hkz. now apply list_elem_of_fmap_2.
Qed.

Lemma sorted_strict_unique (l1 : list CalendarEvent) :
  forall l2, StronglySorted event_lt l1 -> StronglySorted event_lt l2 ->
             Permutation l1 l2 -> l1 = l2.
Proof.
  induction l1 as [|x l1 IH]; intros l2 H1 H2 Hperm.
  - now apply Permutation_nil in Hperm.
  - destruct l2 as [|y l2]; [now apply Permutation_sym, Permutation_nil in Hperm|].
    apply StronglySorted_inv in H1 as [H1 Hx].
    apply StronglySorted_inv in H2 as [H2 Hy].
    rewrite Forall_forall in Hx, Hy.
    assert (Hxy : x = y).
    { assert (Hxin : x ∈ y :: l2) by (rewrite <- Hperm; left).
      assert (Hyin : y ∈ x :: l1) by (rewrite Hperm; left).
      apply elem_of_cons in Hxin as [Heq|Hxin]; [exact Heq|].
      apply elem_of_cons in Hyin as [Heq|Hyin]; [now symmetry|].
      destruct (event_lt_asym x y (Hx y Hyin) (Hy x Hxin)). }
    subst y. f_equal. apply IH; [exact H1|exact H2|].
    now apply Permutation_cons_inv in Hperm.
Qed.

(** X12.  When the events have integer months and days and text names
    and no two of them share month, day and name, the order in which they
    are read does not matter: every rearrangement of the input sorts to
    the same list. *)
Theorem sort_events_order_insensitive (l l' : list CalendarEvent)
  (Htyped : Forall typed l)
  (Hdistinct : NoDup (typed_key <$> l))
  (Hperm : Permutation l l') :
  sort_events l' = sort_events l.
Proof.
  assert (Htyped' : Forall typed l').
  { eapply Permutation_Forall; [exact Hperm|exact Htyped]. }
  rewrite (sort_events_typed l Htyped), (sort_events_typed l' Htyped').
  f_equal. apply sorted_strict_unique.
  - apply sorted_strict; [now apply insertion_sort_sorted|].
    rewrite <- insertion_sort_perm, <- Hperm. exact Hdistinct.
  - apply sorted_strict; [now apply insertion_sort_sorted|].
    rewrite <- insertion_sort_perm. exact Hdistinct.
  - rewrite <- !insertion_sort_perm. now symmetry.
Qed.

Lemma sort_events_order_insensitive_witness :
  sort_events (reverse sample_events) = sort_events sample_events.
Proof.
  apply sort_events_order_insensitive.
  - repeat constructor; eexists; reflexivity.
  - apply NoDup_ListNoDup. vm_compute.
    repeat (constructor; [cbn; intuition discriminate|]). constructor.
  - symmetry. apply reverse_Permutation.
Defined.

Lemma insertion_sort_sorted_id (l : list CalendarEvent) :
  StronglySorted event_le l -> insertion_sort l = l.
Proof.
  induction 1 as [|x l Hsorted IH Hx]; [reflexivity|].
  cbn [insertion_sort]. rewrite IH.
  destruct l as [|y l]; [reflexivity|]. cbn [insert_event].
  apply Forall_cons in Hx as [(kx & ky & Hkx & Hky & Hle) _].
  destruct (lt_true (key_lt y x)) eqn:Hlt; [|reflexivity].
  exfalso. apply (lt_true_typed y x ky kx Hky Hkx) in Hlt.
  destruct Hle as [Hxy| ->]; [exact (key3_lt_asym kx ky Hxy Hlt)|].
  exact (key3_lt_irrefl ky Hlt).
Qed.

(** X13.  Sorting changes nothing on a list of typed events that is
    already in ascending order of the key, so sorting the result of a
    sort again gives it back: what [load_events] returns is a fixed point
    of its sort. *)
Theorem sort_events_sorted_fixed (l : list CalendarEvent)
  (Htyped : Forall typed l) :
  (StronglySorted event_le l -> sort_events l = Returns l)
  /\ (forall out, sort_events l = Returns out -> sort_events out = Returns out).
Proof.
  split.
  - intros Hsorted. rewrite (sort_events_typed l Htyped).
    now rewrite insertion_sort_sorted_id.
  - intros out Hout. apply sort_events_Returns in Hout as ->.
    assert (Htyped' : Forall typed (insertion_sort l)).
    { eapply Permutation_Forall; [apply insertion_sort_perm|exact Htyped]. }
    rewrite (sort_events_typed _ Htyped').
    now rewrite insertion_sort_sorted_id by now apply insertion_sort_sorted.
Qed.

Lemma sort_events_sorted_fixed_witness :
  sort_events sample_sorted = Returns sample_sorted.
Proof.
  destruct (sort_events_sorted_fixed sample_events) as (_ & Hfixed).
  - repeat constructor; eexists; reflexivity.
  - apply Hfixed. vm_compute. reflexivity.
Defined.

(** ** Text that encodes *)

Lemma encodable_app (a b : str) : encodable a -> encodable b -> encodable (a ++ b).
Proof. intros Ha Hb. apply Forall_app. now split. Qed.

Lemma ascii_scalar (c : Z) : 0 <= c < 256 -> scalar c = true.
Proof. intros H. apply scalar_range. lia. Qed.

Lemma lit_ascii (s : string) : Forall (fun c => 0 <= c < 256) (lit s).
Proof.
  induction s as [|a s IH]; [constructor|]. cbn [lit]. constructor; [|exact IH].
  pose proof (N_ascii_bounded a). lia.
Qed.

Lemma ascii_encodable (s : str) :
  Forall (fun c => 0 <= c < 256) s -> encodable s.
Proof.
  intros H. eapply Forall_impl; [exact H|]. intros c Hc. now apply ascii_scalar.
Qed.

Lemma encodable_lit (s : string) : encodable (lit s).
Proof. apply ascii_encodable, lit_ascii. Qed.






Lemma encodable_join (sep : str) (parts : list str) :
  encodable sep -> Forall encodable parts -> encodable (join sep parts).
Proof.
  intros Hsep. induction 1 as [|p parts Hp Hparts IH]; [constructor|].
  destruct parts as [|q parts]; [exact Hp|].
  change (join sep (p :: q :: parts)) with (p ++ sep ++ join sep (q :: parts)).
  now repeat apply encodable_app.
Qed.

Lemma encodable_concat (parts : list str) :
  encodable (concat parts) -> Forall encodable parts.
Proof.
  induction parts as [|p parts IH]; [constructor|]. cbn [concat].
  intros H. apply Forall_app in H as [Hp Hrest]. constructor; auto.
Qed.

(** ** Digits *)

Lemma decimal_from_digits (fuel : nat) (n : Z) (acc : str) :
  Forall (fun c => 48 <= c <= 57) acc ->
  Forall (fun c => 48 <= c <= 57) (decimal_from fuel n acc).
Proof.
  revert n acc. induction fuel as [|fuel IH]; intros n acc Hacc; [exact Hacc|].
  cbn [decimal_from].
  assert (Hd : 48 <= 48 + n mod 10 <= 57)
    by (pose proof (Z.mod_pos_bound n 10); lia).
  destruct (n <? 10); [now constructor|]. apply IH. now constructor.
Qed.

Lemma decimal_digits (n : Z) : Forall (fun c => 48 <= c <= 57) (decimal n).
Proof. apply decimal_from_digits. constructor. Qed.

(** What [format(z, "02d")] is made of: digits and the minus sign. *)
Lemma format_02d_int_chars (z : Z) :
  Forall (fun c => 45 <= c <= 57) (format_02d_int z).
Proof.
  unfold format_02d_int. apply Forall_app. split.
  - destruct (z <? 0); [apply Forall_singleton; cbn; lia|constructor].
  - apply Forall_app. split.
    + apply Forall_replicate. lia.
    + eapply Forall_impl; [apply decimal_digits|]. intros c Hc. cbn in Hc. lia.
Qed.


Lemma chars_between_no_newline (lo hi : Z) (s : str) :
  LF < lo -> Forall (fun c => lo <= c <= hi) s -> LF ∉ s.
Proof.
  intros Hlo Hs Hin. rewrite Forall_forall in Hs. specialize (Hs LF Hin). lia.
Qed.


(** ** Newlines *)

Lemma no_bare_lf_free (b : bool) (s : str) :
  LF ∉ s -> no_bare_lf_from b s = true.
Proof.
  revert b. induction s as [|c s IH]; intros b Hfree; [reflexivity|].
  cbn [no_bare_lf_from]. apply not_elem_of_cons in Hfree as [Hc Hs].
  rewrite (proj2 (Z.eqb_neq c LF)) by congruence. cbn [negb orb andb].
  now apply IH.
Qed.

Lemma no_bare_lf_crlf (b : bool) (s1 s2 : str) :
  no_bare_lf_from b (s1 ++ CR :: LF :: s2)
  = no_bare_lf_from b s1 && no_bare_lf_from false s2.
Proof.
  revert b. induction s1 as [|c s1 IH]; intros b.
  - cbn. now destruct b.
  - cbn [app no_bare_lf_from]. now rewrite IH, andb_assoc.
Qed.

Lemma join_no_newline (sep : str) (parts : list str) :
  LF ∉ sep -> Forall (fun p => LF ∉ p) parts -> LF ∉ join sep parts.
Proof.
  intros Hsep. induction 1 as [|p parts Hp Hparts IH]; [apply not_elem_of_nil|].
  destruct parts as [|q parts]; [exact Hp|].
  change (join sep (p :: q :: parts)) with (p ++ sep ++ join sep (q :: parts)).
  rewrite !elem_of_app. tauto.
Qed.

Lemma concat_no_newline (parts : list str) :
  LF ∉ concat parts -> Forall (fun p => LF ∉ p) parts.
Proof.
  induction parts as [|p parts IH]; [constructor|]. cbn [concat].
  rewrite elem_of_app. intros H. constructor; tauto.
Qed.

Lemma crlf_only_join_marker (parts : list str) :
  Forall (fun p => LF ∉ p) parts -> crlf_only (join fold_marker parts) = true.
Proof.
  unfold crlf_only. induction 1 as [|p parts Hp Hparts IH]; [reflexivity|].
  destruct parts as [|q parts]; [now apply no_bare_lf_free|].
  change (join fold_marker (p :: q :: parts))
    with (p ++ CR :: LF :: SP :: join fold_marker (q :: parts)).
  rewrite no_bare_lf_crlf, (no_bare_lf_free false p Hp).
  cbn [andb no_bare_lf_from]. exact IH.
Qed.

Lemma crlf_only_join_CRLF (lines : list str) :
  Forall (fun l => crlf_only l = true) lines -> crlf_only (join CRLF lines) = true.
Proof.
  unfold crlf_only. induction 1 as [|p lines Hp Hlines IH]; [reflexivity|].
  destruct lines as [|q lines]; [exact Hp|].
  change (join CRLF (p :: q :: lines))
    with (p ++ CR :: LF :: join CRLF (q :: lines)).
  now rewrite no_bare_lf_crlf, Hp, IH.
Qed.

Lemma no_newline_no_marker (s : str) : LF ∉ s -> ~ occurs fold_marker s.
Proof.
  intros Hfree (pre & post & ->). apply Hfree.
  rewrite elem_of_app. right. unfold fold_marker. right. left.
Qed.

(** What a returned fold tells about the line and about the result. *)
Lemma ics_fold_line_Returns (line folded : str) :
  ics_fold_line line = Returns folded ->
  encodable line /\ encodable folded
  /\ (LF ∉ line -> crlf_only folded = true /\ unfold_line folded = line).
Proof.
  intros H. destruct (utf8_encode_cases line) as [[bs Hbs]|Hbs].
  2:{ unfold ics_fold_line in H.
      rewrite (ics_fold_line_unencodable _ line Hbs) in H. discriminate. }
  pose proof (utf8_encode_Returns_encodable line bs Hbs) as Henc.
  split; [exact Henc|].
  destruct (ics_fold_line_encoded line bs Hbs)
    as [[_ Hshort]|(_ & parts & _ & Hlong & Hconcat & _)].
  - rewrite Hshort in H. injection H as <-. split; [exact Henc|].
    intros Hfree. split; [now apply no_bare_lf_free|].
    apply unfold_free. now apply no_newline_no_marker.
  - rewrite Hlong in H. injection H as <-. split.
    + apply encodable_join; [repeat constructor|].
      apply encodable_concat. now rewrite Hconcat.
    + intros Hfree. rewrite <- Hconcat in Hfree.
      split; [now apply crlf_only_join_marker, concat_no_newline|].
      rewrite unfold_join; [exact Hconcat|].
      apply occurs_in_concat. now apply no_newline_no_marker.
Qed.

(** ** Lists of outcomes *)

Lemma mapM_Forall2 {A B} (f : A -> outcome B) (l : list A) (r : list B) :
  mapM f l = Returns r -> Forall2 (fun x y => f x = Returns y) l r.
Proof.
  revert r. induction l as [|x l IH]; intros r H.
  - injection H as <-. constructor.
  - apply mapM_cons_Returns in H as (y & ys & Hy & Hys & ->).
    constructor; [exact Hy|now apply IH].
Qed.

Lemma mapM_all_return {A B} (f : A -> outcome B) (l : list A) :
  Forall (fun x => exists y, f x = Returns y) l -> exists r, mapM f l = Returns r.
Proof.
  induction 1 as [|x l (y & Hy) _ (r & IH)]; [now exists []|].
  exists (y :: r). cbn [mapM]. now rewrite Hy, IH.
Qed.

(** ** The UID *)

Lemma ascii_utf8_encode (s : str) :
  Forall (fun c => 0 <= c < 128) s -> utf8_encode s = Returns s.
Proof.
  induction 1 as [|c s Hc _ IH]; [reflexivity|].
  rewrite (utf8_encode_cons_Returns c s s); [|apply ascii_scalar; lia|exact IH].
  unfold encode_cp. now rewrite (proj2 (Z.ltb_lt c 128)) by lia.
Qed.

Lemma generate_uid_Returns (event : CalendarEvent) (uid : str) :
  generate_uid event = Returns uid ->
  exists encoded, uid = take 16 (SHA256.hexdigest encoded) ++ uid_suffix.
Proof.
  unfold generate_uid. intros H.
  apply bind_Returns in H as (mm & _ & H).
  apply bind_Returns in H as (dd & _ & H).
  apply bind_Returns in H as (nm & _ & H).
  apply bind_Returns in H as (encoded & _ & [= <-]). now exists encoded.
Qed.

Lemma uid_chars (event : CalendarEvent) (uid : str) :
  generate_uid event = Returns uid -> Forall (fun c => 45 <= c <= 122) uid.
Proof.
  intros H. apply generate_uid_Returns in H as (encoded & ->).
  apply Forall_app. split.
  - apply Forall_take. eapply Forall_impl; [apply hexdigest_is_hex|].
    intros c Hc. unfold is_hex_char in Hc. cbn. lia.
  - unfold uid_suffix. cbn. repeat (constructor; [lia|]). constructor.
Qed.

(** X14.  Whatever the event, a UID that [generate_uid] returns is 32
    characters: 16 hexadecimal digits and the suffix "@touhou-calendar";
    the line "UID:" and the UID is 36 octets, which [ics_fold_line]
    leaves as it is. *)
Theorem generate_uid_shape (event : CalendarEvent) (uid : str)
  (Huid : generate_uid event = Returns uid) :
  length uid = 32%nat
  /\ Forall is_hex_char (take 16 uid)
  /\ drop 16 uid = lit "@touhou-calendar"
  /\ octets (lit "UID:" ++ uid) = Returns 36%nat
  /\ ics_fold_line (lit "UID:" ++ uid) = Returns (lit "UID:" ++ uid).
Proof.
  pose proof (uid_chars event uid Huid) as Hchars.
  apply generate_uid_Returns in Huid as (encoded & ->).
  assert (Hhash : length (take 16 (SHA256.hexdigest encoded)) = 16%nat)
    by (rewrite length_take, hexdigest_length; reflexivity).
  assert (Hlen : length (take 16 (SHA256.hexdigest encoded) ++ uid_suffix) = 32%nat)
    by (rewrite length_app, Hhash; reflexivity).
  assert (Hencoded : utf8_encode (lit "UID:" ++ take 16 (SHA256.hexdigest encoded)
                                  ++ uid_suffix)
                     = Returns (lit "UID:" ++ take 16 (SHA256.hexdigest encoded)
                                ++ uid_suffix)).
  { apply ascii_utf8_encode, Forall_app. split.
    - cbn. repeat (constructor; [lia|]). constructor.
    - eapply Forall_impl; [exact Hchars|]. intros c Hc. cbn in Hc. lia. }
  split; [exact Hlen|]. split.
  { rewrite take_app_le by lia. rewrite take_ge by lia.
    apply Forall_take, hexdigest_is_hex. }
  split.
  { rewrite drop_app_ge by lia. now rewrite Hhash, Nat.sub_diag. }
  split.
  { unfold octets. rewrite Hencoded. cbn [fmap outcome_fmap bind].
    now rewrite length_app, Hlen. }
  destruct (ics_fold_line_encoded _ _ Hencoded) as [[_ H]|[Hlong _]]; [exact H|].
  rewrite length_app, Hlen in Hlong. cbn [length lit] in Hlong. lia.
Qed.

Lemma generate_uid_shape_witness :
  length (lit "1246b52e625d9167@touhou-calendar") = 32%nat
  /\ ics_fold_line (lit "UID:1246b52e625d9167@touhou-calendar")
     = Returns (lit "UID:1246b52e625d9167@touhou-calendar").
Proof.
  destruct (generate_uid_shape miyako (lit "1246b52e625d9167@touhou-calendar"))
    as (Hlen & _ & _ & _ & Hfold).
  - vm_compute. reflexivity.
  - split; [exact Hlen|exact Hfold].
Defined.

(** ** The parts of a rendered event *)

Lemma fmap_Returns {A B} (f : A -> B) (m : outcome A) (b : B) :
  f <$> m = Returns b -> exists a, m = Returns a /\ b = f a.
Proof.
  unfold fmap, outcome_fmap. intros H.
  apply bind_Returns in H as (a & Ha & [= <-]). now exists a.
Qed.

Lemma as_str_receiver_Returns (v : pyval) (s : str) :
  as_str_receiver v = Returns s -> v = VStr s.
Proof. destruct v; cbn; try discriminate. now intros [= ->]. Qed.

Lemma date_Returns (y : Z) (m d : pyval) (dt : Z * Z * Z) :
  date y m d = Returns dt -> exists mz dz, dt = (y, mz, dz).
Proof.
  unfold date. intros H.
  apply bind_Returns in H as (mz & _ & H).
  apply bind_Returns in H as (dz & _ & H).
  destruct (negb _); [discriminate|]. destruct (negb _); [discriminate|].
  injection H as <-. now exists mz, dz.
Qed.

Lemma strftime_chars (dt : Z * Z * Z) :
  Forall (fun c => 45 <= c <= 57) (strftime_Ymd dt).
Proof.
  destruct dt as [[y m] d]. unfold strftime_Ymd.
  apply Forall_app. split; [|apply Forall_app; split; apply format_02d_int_chars].
  eapply Forall_impl; [apply decimal_digits|]. intros c Hc. cbn in Hc. lia.
Qed.

Lemma escaped_parts_no_newline (parts : list pyval) (escaped : list str) :
  mapM (fun part => let! p := py_strip part in Returns (ics_escape p)) parts
    = Returns escaped ->
  Forall (fun x => LF ∉ x) escaped.
Proof.
  revert escaped. induction parts as [|part parts IH]; intros escaped H.
  - injection H as <-. constructor.
  - apply mapM_cons_Returns in H as (y & ys & Hy & Hys & ->).
    apply bind_Returns in Hy as (p & _ & [= <-]).
    constructor; [apply ics_escape_no_newline|now apply IH].
Qed.

Lemma build_description_no_newline (event : CalendarEvent) (description : str) :
  build_description event = Returns description -> LF ∉ description.
Proof.
  unfold build_description. intros H.
  apply bind_Returns in H as (chosen & _ & H).
  apply bind_Returns in H as (stripped & _ & H).
  apply bind_Returns in H as (parts & _ & H).
  apply bind_Returns in H as (escaped & Hescaped & [= <-]).
  apply join_no_newline; [|now apply escaped_parts_no_newline with parts].
  intros Hin. apply list_elem_of_In in Hin. vm_compute in Hin.
  intuition discriminate.
Qed.

Lemma lit_no_newline_check (s : string) :
  forallb (fun c => negb (c =? LF)) (lit s) = true -> LF ∉ lit s.
Proof.
  intros H Hin. rewrite forallb_forall in H.
  apply list_elem_of_In in Hin. specialize (H LF Hin). discriminate.
Qed.

Lemma app_no_newline (a b : str) : LF ∉ a -> LF ∉ b -> LF ∉ a ++ b.
Proof. rewrite elem_of_app. tauto. Qed.

Ltac lit_no_newline := apply lit_no_newline_check; vm_compute; reflexivity.

Lemma vevent_lines_no_newline (uid dtstart summary description : str) :
  LF ∉ uid -> LF ∉ dtstart -> LF ∉ summary -> LF ∉ description ->
  Forall (fun l => LF ∉ l) (vevent_lines uid dtstart summary description).
Proof.
  intros Hu Hd Hs He. unfold vevent_lines.
  repeat (constructor;
          [first [lit_no_newline | apply app_no_newline; [lit_no_newline|assumption]]|]).
  constructor.
Qed.

(** What a rendered event is made of. *)
Lemma build_vevent_Returns (event : CalendarEvent) (out : str) :
  build_vevent event = Returns out ->
  exists uid dt summary description folded,
    generate_uid event = Returns uid
    /\ date REFERENCE_YEAR (month event) (day event) = Returns dt
    /\ name event = VStr summary
    /\ build_description event = Returns description
    /\ mapM ics_fold_line
         (vevent_lines uid (strftime_Ymd dt) (ics_escape summary) description)
       = Returns folded
    /\ Forall (fun l => LF ∉ l)
         (vevent_lines uid (strftime_Ymd dt) (ics_escape summary) description)
    /\ out = join CRLF folded.
Proof.
  unfold build_vevent. intros H.
  apply bind_Returns in H as (dt & Hdt & H).
  apply bind_Returns in H as (description & Hdescription & H).
  apply bind_Returns in H as (summary & Hsummary & H).
  apply bind_Returns in H as (uid & Huid & H).
  apply bind_Returns in H as (folded & Hfolded & [= <-]).
  apply fmap_Returns in Hsummary as (s & Hs & ->).
  apply as_str_receiver_Returns in Hs.
  exists uid, dt, s, description, folded.
  repeat (split; [assumption|]). split; [|reflexivity].
  apply vevent_lines_no_newline.
  - eapply chars_between_no_newline; [|exact (uid_chars event uid Huid)].
    unfold LF. lia.
  - eapply chars_between_no_newline; [|apply strftime_chars]. unfold LF. lia.
  - apply ics_escape_no_newline.
  - now apply build_description_no_newline with event.
Qed.

Lemma folded_lines (lines folded : list str) :
  mapM ics_fold_line lines = Returns folded ->
  Forall (fun l => LF ∉ l) lines ->
  Forall2 (fun l f => ics_fold_line l = Returns f /\ unfold_line f = l)
          lines folded
  /\ Forall (fun f => crlf_only f = true) folded
  /\ Forall encodable folded.
Proof.
  intros H. apply mapM_Forall2 in H.
  induction H as [|l f lines folded Hf _ IH]; intros Hfree.
  - repeat split; constructor.
  - apply Forall_cons in Hfree as [Hl Hfree].
    destruct (IH Hfree) as (H2 & Hcrlf & Henc).
    destruct (ics_fold_line_Returns l f Hf) as (_ & Hfe & Hfold).
    destruct (Hfold Hl) as [Hfc Hfu].
    repeat split; constructor; auto.
Qed.

(** X15.  When [build_vevent] returns, what it folded are eight lines
    without a newline in them, the first BEGIN:VEVENT and the last
    END:VEVENT, with the UID, the date, the escaped name and the
    description between; the result is their folded forms joined by CRLF,
    and taking the fold markers out of each gives its line back. *)
Theorem build_vevent_folding_reversible (event : CalendarEvent) (out : str)
  (Hout : build_vevent event = Returns out) :
  exists uid dt summary description folded,
    generate_uid event = Returns uid
    /\ date REFERENCE_YEAR (month event) (day event) = Returns dt
    /\ name event = VStr summary
    /\ build_description event = Returns description
    /\ Forall (fun l => LF ∉ l)
         (vevent_lines uid (strftime_Ymd dt) (ics_escape summary) description)
    /\ Forall2 (fun l f => ics_fold_line l = Returns f /\ unfold_line f = l)
         (vevent_lines uid (strftime_Ymd dt) (ics_escape summary) description)
         folded
    /\ out = join CRLF folded.
Proof.
  apply build_vevent_Returns in Hout
    as (uid & dt & summary & description & folded
        & Huid & Hdt & Hname & Hdescription & Hfolded & Hfree & ->).
  exists uid, dt, summary, description, folded.
  repeat (split; [assumption|]). split; [|reflexivity].
  now apply folded_lines.
Qed.

Lemma build_vevent_folding_reversible_witness :
  exists out uid dt summary description folded,
    build_vevent multiline_event = Returns out
    /\ generate_uid multiline_event = Returns uid
    /\ name multiline_event = VStr summary
    /\ build_description multiline_event = Returns description
    /\ Forall2 (fun l f => ics_fold_line l = Returns f /\ unfold_line f = l)
         (vevent_lines uid (strftime_Ymd dt) (ics_escape summary) description)
         folded
    /\ out = join CRLF folded.
Proof.
  assert (Hreturns : exists out, build_vevent multiline_event = Returns out)
    by (eexists; vm_compute; reflexivity).
  destruct Hreturns as [out Hout].
  destruct (build_vevent_folding_reversible multiline_event out Hout)
    as (uid & dt & summary & description & folded
        & Huid & _ & Hname & Hdescription & _ & Hfolded & Hjoin).
  exists out, uid, dt, summary, description, folded.
  exact (conj Hout (conj Huid (conj Hname (conj Hdescription
           (conj Hfolded Hjoin))))).
Defined.

(** ** Well-formed records render *)














(** ** The calendar text *)

Lemma build_vevent_crlf_encodable (event : CalendarEvent) (out : str) :
  build_vevent event = Returns out -> crlf_only out = true /\ encodable out.
Proof.
  intros H. apply build_vevent_Returns in H
    as (uid & dt & summary & description & folded
        & _ & _ & _ & _ & Hfolded & Hfree & ->).
  destruct (folded_lines _ _ Hfolded Hfree) as (_ & Hcrlf & Henc).
  split; [now apply crlf_only_join_CRLF|].
  apply encodable_join; [repeat constructor|exact Henc].
Qed.

Lemma build_ics_Returns (events : list CalendarEvent) (ics : str) :
  build_ics events = Returns ics ->
  exists vevents,
    mapM build_vevent events = Returns vevents
    /\ ics = ics_header ++ CRLF ++ join CRLF vevents ++ CRLF
             ++ lit "END:VCALENDAR" ++ CRLF.
Proof.
  unfold build_ics. intros H.
  apply bind_Returns in H as (joined & Hjoined & [= <-]).
  apply fmap_Returns in Hjoined as (vevents & Hvevents & ->).
  now exists vevents.
Qed.

Lemma build_ics_crlf_encodable (events : list CalendarEvent) (ics : str) :
  build_ics events = Returns ics -> crlf_only ics = true /\ encodable ics.
Proof.
  intros H. apply build_ics_Returns in H as (vevents & Hvevents & ->).
  apply mapM_Forall2 in Hvevents.
  assert (Hall : Forall (fun v => crlf_only v = true /\ encodable v) vevents).
  { induction Hvevents as [|e v events vevents Hv _ IH]; constructor;
      [now apply (build_vevent_crlf_encodable e)|exact IH]. }
  split.
  - unfold crlf_only, CRLF. cbn [app]. rewrite !no_bare_lf_crlf.
    change (no_bare_lf_from false ?s) with (crlf_only s).
    rewrite crlf_only_join_CRLF.
    + vm_compute. reflexivity.
    + eapply Forall_impl; [exact Hall|]. now intros v [Hv _].
  - assert (Hcrlf : encodable CRLF) by (repeat constructor).
    apply encodable_app.
    { apply encodable_join; [exact Hcrlf|].
      repeat (constructor; [apply encodable_lit|]). constructor. }
    apply encodable_app; [exact Hcrlf|]. apply encodable_app.
    { apply encodable_join; [exact Hcrlf|].
      eapply Forall_impl; [exact Hall|]. now intros v [_ Hv]. }
    apply encodable_app; [exact Hcrlf|].
    apply encodable_app; [apply encodable_lit|exact Hcrlf].
Qed.

(** X17.  A calendar that [build_ics] returns is the header, the
    rendered events in the order given and the closing line, joined by
    CRLF and ended by one; every newline in it is the second half of a
    CRLF, whatever the events' texts hold, and all of it encodes in
    UTF-8. *)
Theorem build_ics_line_ends (events : list CalendarEvent) (ics : str)
  (Hics : build_ics events = Returns ics) :
  crlf_only ics = true
  /\ encodable ics
  /\ exists vevents,
       Forall2 (fun e v => build_vevent e = Returns v) events vevents
       /\ ics = ics_header ++ CRLF ++ join CRLF vevents ++ CRLF
                ++ lit "END:VCALENDAR" ++ CRLF.
Proof.
  destruct (build_ics_crlf_encodable events ics Hics) as [Hcrlf Henc].
  split; [exact Hcrlf|]. split; [exact Henc|].
  apply build_ics_Returns in Hics as (vevents & Hvevents & ->).
  exists vevents. split; [now apply mapM_Forall2|reflexivity].
Qed.

Lemma build_ics_line_ends_witness :
  exists ics,
    build_ics [multiline_event; miyako] = Returns ics
    /\ crlf_only ics = true /\ encodable ics.
Proof.
  assert (Hreturns : exists ics, build_ics [multiline_event; miyako] = Returns ics)
    by (eexists; vm_compute; reflexivity).
  destruct Hreturns as [ics Hics].
  destruct (build_ics_line_ends [multiline_event; miyako] ics Hics)
    as (Hcrlf & Henc & _).
  exists ics. exact (conj Hics (conj Hcrlf Henc)).
Defined.

(** ** The run *)

Lemma print_events_world (events : list CalendarEvent) :
  forall w r w',
    print_events events w = (r, w') ->
    days w' = days w /\ output w' = output w.
Proof.
  induction events as [|e events IH]; intros w r w' H.
  - injection H as <- <-. now split.
  - cbn [print_events] in H. destruct (summary_line e) as [line| | |];
      try (injection H as <- <-; now split).
    now apply IH in H.
Qed.

Lemma print_event_summary_world (events : list CalendarEvent) (w : world)
  (r : outcome unit) (w' : world) :
  print_event_summary events w = (r, w') ->
  days w' = days w /\ output w' = output w.
Proof.
  unfold print_event_summary.
  destruct (print_events events _) as [r1 w1] eqn:H1.
  apply print_events_world in H1 as [Hd Ho]. cbn [print days output] in Hd, Ho.
  destruct r1; intros [= <- <-]; now split.
Qed.

(** X18.  [main] writes the whole calendar or nothing.  When it returns,
    the output file holds the UTF-8 bytes of the calendar built from the
    loaded events; when it ends in any other way, by an exception in
    loading, in the summary or in building, the output file is what it
    was.  The sources are never changed. *)
Theorem main_all_or_nothing (w : world) (r : outcome unit) (w' : world)
  (Hrun : main w = (r, w')) :
  days w' = days w
  /\ ((r = Returns tt
       /\ exists events ics encoded,
            load_events w = Returns events
            /\ build_ics events = Returns ics
            /\ utf8_encode ics = Returns encoded
            /\ output w' = Some encoded)
      \/ (r <> Returns tt /\ output w' = output w)).
Proof.
  unfold main in Hrun.
  destruct (load_events w) as [events| | |] eqn:Hload;
    try (injection Hrun as <- <-; split; [reflexivity|right; now split]).
  destruct (print_event_summary events w) as [r1 w1] eqn:Hprint.
  apply print_event_summary_world in Hprint as [Hd Ho].
  destruct r1 as [[]| | |];
    try (injection Hrun as <- <-; split; [exact Hd|right; now split]).
  destruct (build_ics events) as [ics| | |] eqn:Hics;
    try (injection Hrun as <- <-; split; [exact Hd|right; now split]).
  destruct (build_ics_crlf_encodable events ics Hics) as [_ Henc].
  destruct (utf8_encode_encodable ics Henc) as (encoded & Hencoded).
  unfold write_text in Hrun. rewrite Hencoded in Hrun.
  injection Hrun as <- <-. cbn [print days output].
  split; [exact Hd|]. left. split; [reflexivity|].
  now exists events, ics, encoded.
Qed.

Lemma main_all_or_nothing_witness :
  output (snd (main (one_month_world 2 [miyako_doc; feb30_event_doc]))) = None
  /\ fst (main (one_month_world 2 [miyako_doc; feb30_event_doc]))
     = Raises ValueError.
Proof.
  pose (w := one_month_world 2 [miyako_doc; feb30_event_doc]).
  destruct (main w) as [r w'] eqn:Hrun.
  assert (Hr : r = Raises ValueError).
  { change r with (fst (r, w')). rewrite <- Hrun. vm_compute. reflexivity. }
  destruct (main_all_or_nothing w r w' Hrun) as (_ & [(Hret & _)|(_ & Hout)]).
  - rewrite Hr in Hret. discriminate.
  - fold w. rewrite Hrun. cbn [fst snd]. split; [exact Hout|exact Hr].
Defined.






(** ** A calendar is built from all events or not at all *)

Lemma mapM_Returns_all {A B} (f : A -> outcome B) (l : list A) (r : list B) :
  mapM f l = Returns r -> Forall (fun x => exists y, f x = Returns y) l.
Proof.
  intros H. apply mapM_Forall2 in H.
  induction H as [|x y l r Hxy _ IH]; constructor; eauto.
Qed.

Lemma mapM_first_raise {A B} (f : A -> outcome B) (pre : list A) (x : A)
  (post : list A) (e : exn) :
  Forall (fun a => exists y, f a = Returns y) pre -> f x = Raises e ->
  mapM f (pre ++ x :: post) = Raises e.
Proof.
  intros Hpre Hx. destruct (mapM_all_return f pre Hpre) as (r & Hr).
  rewrite mapM_app, Hr. cbn [bind mapM]. now rewrite Hx.
Qed.

(** X20.  [build_ics] returns exactly when [build_vevent] returns on
    every event; otherwise it ends with the exception of the first event
    that fails, and no calendar of the others is made. *)
Theorem build_ics_needs_every_event (events : list CalendarEvent) :
  ((exists ics, build_ics events = Returns ics) <-> Forall renders events)
  /\ (forall pre e post exn,
        events = pre ++ e :: post -> Forall renders pre ->
        build_vevent e = Raises exn -> build_ics events = Raises exn).
Proof.
  split; [split|].
  - intros (ics & Hics). apply build_ics_Returns in Hics as (vevents & Hv & _).
    now apply mapM_Returns_all in Hv.
  - intros Hall. destruct (mapM_all_return build_vevent events Hall) as (v & Hv).
    unfold build_ics. rewrite Hv. cbn. eauto.
  - intros pre e post exn -> Hpre He. unfold build_ics.
    now rewrite (mapM_first_raise build_vevent pre e post exn Hpre He).
Qed.

Lemma build_ics_needs_every_event_witness :
  build_ics [miyako; feb30_event; miyako] = Raises ValueError.
Proof.
  destruct (build_ics_needs_every_event [miyako; feb30_event; miyako])
    as (_ & Hfirst).
  apply (Hfirst [miyako] feb30_event [miyako]).
  - reflexivity.
  - constructor; [|constructor]. eexists. vm_compute. reflexivity.
  - vm_compute. reflexivity.
Defined.

(** ** No events *)

Lemma foldM_load_doc_all_empty (docs : list pyval) (events : list CalendarEvent) :
  Forall (fun doc => doc = VNone) docs -> foldM load_doc events docs = Returns events.
Proof.
  induction 1 as [|doc docs -> _ IH]; [reflexivity|]. cbn [foldM load_doc bind].
  exact IH.
Qed.

Lemma foldM_load_month_all_empty (w : world) (months : list Z)
  (events : list CalendarEvent) :
  (forall m, m ∈ months ->
     exists docs, days w !! m = Some docs /\ Forall (fun doc => doc = VNone) docs) ->
  foldM (load_month w) events months = Returns events.
Proof.
  induction months as [|m months IH]; intros Hall; [reflexivity|].
  cbn [foldM]. destruct (Hall m) as (docs & Hdocs & Hnone); [left|].
  unfold load_month at 1, open_yaml. rewrite Hdocs. cbn [bind].
  rewrite (foldM_load_doc_all_empty docs events Hnone). cbn [bind].
  apply IH. intros m' Hm'. apply Hall. now right.
Qed.

(** X21.  When the twelve sources exist and hold no block, only empty
    documents if any, [load_events] returns no event and [main] writes a
    calendar of the header and the closing line with an empty line
    between them, where the events would be. *)
Theorem main_without_events (w : world)
  (Hblank : forall m, 1 <= m <= 12 ->
     exists docs, days w !! m = Some docs /\ Forall (fun doc => doc = VNone) docs) :
  load_events w = Returns []
  /\ build_ics [] = Returns empty_ics
  /\ split empty_ics CRLF !! 6%nat = Some []
  /\ split empty_ics CRLF !! 7%nat = Some (lit "END:VCALENDAR")
  /\ exists w',
       main w = (Returns tt, w')
       /\ (utf8_decode <$> output w') = Some (Returns empty_ics).
Proof.
  assert (Hload : load_events w = Returns []).
  { unfold load_events, collect_events.
    rewrite foldM_load_month_all_empty; [reflexivity|].
    intros m Hm. apply elem_of_seqZ in Hm. apply Hblank. lia. }
  assert (Hics : build_ics [] = Returns empty_ics) by (vm_compute; reflexivity).
  assert (Hbytes : utf8_encode empty_ics = Returns empty_ics)
    by (vm_compute; reflexivity).
  assert (Hback : utf8_decode empty_ics = Returns empty_ics)
    by (vm_compute; reflexivity).
  split; [exact Hload|]. split; [exact Hics|].
  split; [vm_compute; reflexivity|]. split; [vm_compute; reflexivity|].
  eexists. unfold main. rewrite Hload.
  cbn [print_event_summary print_events]. rewrite Hics.
  unfold write_text. rewrite Hbytes. split; [reflexivity|].
  cbn [print output fmap option_fmap option_map]. now rewrite Hback.
Qed.

Lemma main_without_events_witness :
  load_events blank_world = Returns []
  /\ exists w',
       main blank_world = (Returns tt, w')
       /\ (utf8_decode <$> output w') = Some (Returns empty_ics).
Proof.
  destruct (main_without_events blank_world) as (Hload & _ & _ & _ & Hmain).
  - intros m Hm.
    assert (Hcases : m = 1 \/ m = 2 \/ m = 3 \/ m = 4 \/ m = 5 \/ m = 6 \/ m = 7
                     \/ m = 8 \/ m = 9 \/ m = 10 \/ m = 11 \/ m = 12) by lia.
    destruct Hcases as [-> | [-> | [-> | Hcases]]];
      [exists []; split; [reflexivity|constructor]
      |exists []; split; [reflexivity|constructor]
      |exists [VNone; VNone]; split; [reflexivity|repeat constructor]|].
    repeat (destruct Hcases as [-> | Hcases];
            [exists []; split; [reflexivity|constructor]|]).
    subst m. exists []. split; [reflexivity|constructor].
  - split; [exact Hload|exact Hmain].
Defined.

(** ** The summary *)





